(** * radparse: a shallow embedding of [src/parser.ts] and [src/either.ts]

    The development follows the two source files:
    - [Either]: the two-variant result container of [either.ts];
    - position and state tracking ([initialState], [updatePosition],
      [updateState], [consumeString]);
    - the [Parser] class with its combinators ([error], [error2], [run],
      [map], [flatMap], [pure], [zip], [bind]);
    - [Parser.gen], whose parsers close over one mutable iterator.

    Modelling conventions.
    - A JavaScript string is a sequence of UTF-16 code units; [length] and
      [slice] count code units, whereas [for (const char of s)] visits code
      points (a surrogate pair is visited once, as a two-unit string).
    - The [number] fields of a position hold integers.  [updatePosition]
      is embedded twice: with exact integer arithmetic, and in module
      [Binary64] with the [++] of a binary64 number, which rounds from
      2^53 on; the two agree while the fields stay within 2^53.
    - A JavaScript object used as a record is a finite map from property
      names to values. *)

From stdpp Require Import base option list numbers countable strings gmap.
From Stdlib Require Import ZArith Lia.

Local Open Scope Z_scope.

(** ** JavaScript strings *)

Definition code_unit := N.
Abbreviation JSString := (list code_unit).

(** Text written in ASCII, as a sequence of code units. *)
Definition js (s : string) : JSString :=
  map Ascii.N_of_ascii (String.list_ascii_of_string s).

(** [s.length] *)
Definition js_length (s : JSString) : Z := Z.of_nat (length s).

(** Lead (high) and trail (low) surrogates. *)
Definition is_high (u : code_unit) : bool :=
  ((0xD800 <=? u) && (u <=? 0xDBFF))%N.
Definition is_low (u : code_unit) : bool :=
  ((0xDC00 <=? u) && (u <=? 0xDFFF))%N.

(** The string iterator behind [for (const char of s)]: each element is
    the string of one code point, i.e. a well-formed surrogate pair or a
    single code unit (lone surrogates included). *)
Fixpoint string_iter (s : JSString) : list JSString :=
  match s with
  | [] => []
  | u :: rest =>
      match rest with
      | v :: rest' =>
          if is_high u && is_low v
          then [u; v] :: string_iter rest'
          else [u] :: string_iter rest
      | [] => [[u]]
      end
  end.

(** How many surrogate pairs the iteration of [s] meets. *)
Fixpoint surrogate_pairs (s : JSString) : nat :=
  match s with
  | [] => O
  | u :: rest =>
      match rest with
      | v :: rest' =>
          if is_high u && is_low v
          then S (surrogate_pairs rest')
          else surrogate_pairs rest
      | [] => O
      end
  end.

(** Index clamping of [String.prototype.slice]: a negative index counts
    from the end, and the result is kept within [0, len]. *)
Definition clamp_index (len i : Z) : Z :=
  if i <? 0 then Z.max (len + i) 0 else Z.min i len.

(** [s.slice(start, end)]; [end_ = None] is an omitted second argument. *)
Definition slice (s : JSString) (start : Z) (end_ : option Z) : JSString :=
  let len := js_length s in
  let from := clamp_index len start in
  let to := match end_ with
            | None => len
            | Some e => clamp_index len e
            end in
  take (Z.to_nat (to - from)) (drop (Z.to_nat from) s).

(** The line feed and the string ["\n"]. *)
Definition LF : code_unit := 10%N.
Definition newline : JSString := [LF].

(** ** Either ([either.ts]) *)

Inductive Either (R L : Type) : Type :=
| Left (left : L)
| Right (right : R).
Arguments Left {R L} left.
Arguments Right {R L} right.

Module Either.
Definition left {L R : Type} (l : L) : Either R L := Left l.
Definition right {R L : Type} (r : R) : Either R L := Right r.

Definition isLeft {R L : Type} (either : Either R L) : bool :=
  match either with Left _ => true | Right _ => false end.

Definition isRight {R L : Type} (either : Either R L) : bool :=
  match either with Left _ => false | Right _ => true end.

(** [match] takes the two handlers of the [patterns] object. *)
Definition match_ {R L B : Type} (either : Either R L)
    (onLeft : L -> B) (onRight : R -> B) : B :=
  match either with
  | Left l => onLeft l
  | Right r => onRight r
  end.
End Either.

(** ** Positions and parser states *)

Record SourcePosition : Type := mkPos {
  line : Z;
  column : Z;
  offset : Z
}.

Record ParserState : Type := mkState {
  input : JSString;
  pos : SourcePosition
}.

Record ParserOptions : Type := mkOptions {
  name : option JSString
}.

Record ParserError : Type := mkError {
  message : JSString;
  expected : list JSString;
  error_pos : SourcePosition
}.

Definition ParserResult (T : Type) : Type :=
  Either (T * ParserState) ParserError.

Definition initialState (input : JSString) : ParserState :=
  {| input := input;
     pos := {| line := 1; column := 1; offset := 0 |} |}.

(** One turn of the loop of [updatePosition], with exact integer
    arithmetic. *)
Definition advance (p : SourcePosition) (char : JSString) : SourcePosition :=
  if decide (char = newline)
  then {| line := line p + 1; column := 1; offset := offset p + 1 |}
  else {| line := line p; column := column p + 1; offset := offset p + 1 |}.

Definition updatePosition (pos : SourcePosition) (consumed : JSString)
    : SourcePosition :=
  fold_left advance (string_iter consumed) pos.

Definition updateState (oldState newState : ParserState) : ParserState :=
  let consumed :=
    slice (input oldState) 0
          (Some (js_length (input oldState) - js_length (input newState))) in
  {| input := slice (input oldState) (js_length consumed) None;
     pos := updatePosition (pos oldState) consumed |}.

(** [consumed = None] is an omitted (undefined) argument: [consumed ?? ""]
    and [consumed?.length ?? 0]. *)
Definition consumeString (state : ParserState) (consumed : option JSString)
    : ParserState :=
  let newPos := updatePosition (pos state) (default [] consumed) in
  {| input := slice (input state) (default 0 (js_length <$> consumed)) None;
     pos := newPos |}.

(** ** Positions as binary64 numbers

    The fields of a position are JavaScript numbers.  On a number that
    holds an integer, [x++] stores the double nearest to [x + 1]: the
    sum itself up to 2^53, and beyond that the nearest multiple of the
    spacing of doubles, a tie going to the even significand. *)

Module Binary64.

(** The double nearest to the integer [z].  Above 2^53 in magnitude, [e]
    low bits do not fit in the 53-bit significand [q]; the remainder [r]
    decides the rounding. *)
Definition round (z : Z) : Z :=
  let m := Z.abs z in
  if m <=? 2 ^ 53 then z
  else
    let e := Z.log2 m - 52 in
    let q := m / 2 ^ e in
    let r := m mod 2 ^ e in
    let half := 2 ^ (e - 1) in
    let q' := if (half <? r) || ((r =? half) && Z.odd q)
              then q + 1 else q in
    Z.sgn z * (q' * 2 ^ e).

(** [x++] on a number holding the integer [x]. *)
Definition succ (x : Z) : Z := round (x + 1).

(** One turn of the loop of [updatePosition], with the increments of
    binary64 numbers. *)
Definition advance (p : SourcePosition) (char : JSString) : SourcePosition :=
  if decide (char = newline)
  then {| line := succ (line p); column := 1; offset := succ (offset p) |}
  else {| line := line p; column := succ (column p);
          offset := succ (offset p) |}.

Definition updatePosition (pos : SourcePosition) (consumed : JSString)
    : SourcePosition :=
  fold_left advance (string_iter consumed) pos.

End Binary64.

(** ** The Parser class *)

(** A [Parser] object: the transition function [_run], the optional
    [options] and the private field [errorMessage]. *)
Record Parser (T : Type) : Type := mkParser {
  _run : ParserState -> ParserResult T;
  options : option ParserOptions;
  errorMessage : option JSString
}.
Arguments mkParser {T} _ _ _.
Arguments _run {T} _ _.
Arguments options {T} _.
Arguments errorMessage {T} _.

(** [new Parser(_run, options)]: the field initialiser leaves
    [errorMessage] at [null]. *)
Definition new_Parser {T : Type} (_run : ParserState -> ParserResult T)
    (options : option ParserOptions) : Parser T :=
  mkParser _run options None.

(** The test [Either.isLeft(result) && this.errorMessage] shared by [run],
    [map], [flatMap] and [bind]: it holds for a failure when the override
    is a non-empty string ([null] and the empty string are falsy), and then
    gives the failure and the override. *)
Definition failed_with_override {T : Type} (result : ParserResult T)
    (errorMessage : option JSString) : option (ParserError * JSString) :=
  match result, errorMessage with
  | Left l, Some (u :: m) => Some (l, u :: m)
  | _, _ => None
  end.

(** A failure after the override substitution of [run], [map], [flatMap]
    and [bind]: the override, when there is one, replaces the message;
    [expected] and [pos] stay. *)
Definition with_override (errorMessage : option JSString) (e : ParserError)
    : ParserError :=
  match errorMessage with
  | Some (u :: m) => mkError (u :: m) (expected e) (error_pos e)
  | _ => e
  end.

Module Parser.

(** [static error(message, expected, pos)], the raw failure constructor. *)
Definition static_error {T : Type} (message : JSString)
    (expected : list JSString) (pos : SourcePosition) : ParserResult T :=
  Either.left (mkError message expected pos).

(** [static succeed(value, state, consumed?)] *)
Definition succeed {T : Type} (value : T) (state : ParserState)
    (consumed : option JSString) : ParserResult T :=
  Either.right (value, consumeString state consumed).

(** [static fail(message, expected = [])] *)
Definition fail {T : Type} (message : JSString)
    (expected : option (list JSString)) : Parser T :=
  new_Parser
    (fun state => static_error message (default [] expected) (pos state))
    None.

(** [error(message)] *)
Definition error {T : Type} (this : Parser T) (message : JSString)
    : Parser T :=
  new_Parser
    (fun state =>
       let result := _run this state in
       match result with
       | Left l => static_error message (expected l) (error_pos l)
       | Right _ => result
       end)
    (options this).

(** [error2(onError)] *)
Definition error2 {T : Type} (this : Parser T)
    (onError : ParserError -> JSString) : Parser T :=
  new_Parser
    (fun state =>
       let result := _run this state in
       match result with
       | Left l => static_error (onError l) (expected l) (error_pos l)
       | Right _ => result
       end)
    (options this).

(** [run(input)]; the [console.log] of the override branch is output
    only and is left out. *)
Definition run {T : Type} (this : Parser T) (input : JSString)
    : ParserResult T :=
  let result := _run this (initialState input) in
  if Either.isRight result then result
  else
    match failed_with_override result (errorMessage this) with
    | Some (l, m) => static_error m (expected l) (error_pos l)
    | None => result
    end.

(** [map(f)] *)
Definition map {A B : Type} (this : Parser A) (f : A -> B) : Parser B :=
  new_Parser
    (fun state =>
       let result := _run this state in
       match failed_with_override result (errorMessage this) with
       | Some (l, m) => static_error m (expected l) (error_pos l)
       | None =>
           Either.match_ result
             Either.left
             (fun '(value, newState) => Either.right (f value, newState))
       end)
    (options this).

(** [flatMap(f)] *)
Definition flatMap {A B : Type} (this : Parser A) (f : A -> Parser B)
    : Parser B :=
  new_Parser
    (fun state =>
       let result := _run this state in
       match failed_with_override result (errorMessage this) with
       | Some (l, m) => static_error m (expected l) (error_pos l)
       | None =>
           Either.match_ result
             Either.left
             (fun '(value, newState) =>
                let nextParser := f value in
                _run nextParser newState)
       end)
    (options this).

(** [static pure(a)] *)
Definition pure {A : Type} (a : A) : Parser A :=
  new_Parser (fun input => Either.right (a, input)) None.

(** [zip(parserB)]: the new parser is built without [options]. *)
Definition zip {A B : Type} (this : Parser A) (parserB : Parser B)
    : Parser (A * B) :=
  new_Parser
    (fun state =>
       Either.match_ (_run this state)
         Either.left
         (fun '(a, restA) =>
            Either.match_ (_run parserB restA)
              Either.left
              (fun '(b, restB) => Either.right ((a, b), restB))))
    None.

Section Records.
(** [V] is the type of JavaScript values stored in records; a record
    is an object used as a map from property names to values. *)
Context {V : Type}.

(** [static Do()], the parser of the empty record [{}]. *)
Definition Do : Parser (gmap JSString V) := pure ∅.

(** [bind(k, other)]: [other] is a parser ([other instanceof Parser])
    or a function of the record parsed so far.  The object literal
    [{...value, [k]: b}] copies the properties of [value] and then
    sets (or overwrites) property [k]. *)
Definition bind (this : Parser (gmap JSString V)) (k : JSString)
    (other : Parser V + (gmap JSString V -> Parser V))
    : Parser (gmap JSString V) :=
  new_Parser
    (fun state =>
       let result := _run this state in
       match failed_with_override result (errorMessage this) with
       | Some (l, m) => static_error m (expected l) (error_pos l)
       | None =>
           Either.match_ result
             Either.left
             (fun '(value, newState) =>
                let nextParser :=
                  match other with
                  | inl parser => parser
                  | inr fn => fn value
                  end in
                Either.match_ (_run nextParser newState)
                  Either.left
                  (fun '(b, finalState) =>
                     Either.right (<[k := b]> value, finalState)))
       end)
    (options this).
End Records.

End Parser.

(** The parser [bind] runs second, given its argument [other] and the
    record parsed so far: [other instanceof Parser ? other : other(value)]. *)
Definition second_parser {V : Type}
    (other : Parser V + (gmap JSString V -> Parser V))
    (value : gmap JSString V) : Parser V :=
  match other with
  | inl parser => parser
  | inr fn => fn value
  end.

(** ** Parser.gen

    [gen(f)] creates ONE iterator, [f($)], and the parsers it builds call
    [iterator.next] when they are run: their transition functions read and
    write the state of that iterator.  The iterator state is therefore
    threaded explicitly through every run. *)

(** How a call ends: with a value, or with a thrown [Error]. *)
Inductive Completion (A : Type) : Type :=
| Normal (a : A)
| Throw (msg : JSString).
Arguments Normal {A} a.
Arguments Throw {A} msg.

Section Gen.
(** [V]: the JavaScript values parsers produce; [undefined] is one. *)
Context {V : Type} (undefined : V).

(** A value handed over by the generator, as [instanceof Parser] sees
    it. *)
Inductive Value : Type :=
| IsParser (p : Parser V)
| NotParser (v : V).

(** The body of the generator function, as a resumption: it returns, or
    it yields and waits for the value sent by the next call of [next]. *)
Inductive Generator : Type :=
| GReturn (r : Value)
| GYield (y : Value) (k : V -> Generator).

(** [IteratorYieldResult] ([done: false]) and [IteratorReturnResult]
    ([done: true]). *)
Inductive IteratorResult : Type :=
| IterYield (value : Value)
| IterReturn (value : Value).

(** The state of a generator object. *)
Inductive GenState : Type :=
| SuspendedStart (body : Generator)
| SuspendedYield (k : V -> Generator)
| Completed.

(** Running the body up to its next yield or to its return. *)
Definition resume (body : Generator) : IteratorResult * GenState :=
  match body with
  | GReturn r => (IterReturn r, Completed)
  | GYield y k => (IterYield y, SuspendedYield k)
  end.

(** [iterator.next(sent)]: a generator that has not started ignores
    [sent]; a completed one answers [{done: true, value: undefined}]. *)
Definition next (it : GenState) (sent : V) : IteratorResult * GenState :=
  match it with
  | SuspendedStart body => resume body
  | SuspendedYield k => resume (k sent)
  | Completed => (IterReturn (NotParser undefined), Completed)
  end.

(** The parsers [run] returns: a parser received from the generator or
    made by [pure] ([Plain]), or
    [value.flatMap((result) => run(iterator.next(result)))]
    ([Resume value]), whose continuation resumes the iterator. *)
Inductive GenParser : Type :=
| Plain (p : Parser V)
| Resume (value : Parser V).

(** The inner function [run(state)] of [gen]. *)
Definition gen_run (state : IteratorResult) : Completion GenParser :=
  match state with
  | IterReturn (IsParser p) => Normal (Plain p)
  | IterReturn (NotParser v) => Normal (Plain (Parser.pure v))
  | IterYield (IsParser value) => Normal (Resume value)
  | IterYield (NotParser _) => Throw (js "Expected a Parser")
  end.

(** [gen(f)], where [body] is the body of [f($)]: the parser (or the
    exception) of [run(iterator.next())], with the state in which the
    iterator is left. *)
Definition gen (body : Generator) : Completion GenParser * GenState :=
  let iterator := SuspendedStart body in
  let '(state, iterator) := next iterator undefined in
  (gen_run state, iterator).

(** Running the transition function of a parser made by [gen] on [state],
    with the iterator in state [it].  For [Resume value] this is the body
    of [flatMap] with the continuation
    [(result) => run(iterator.next(result))] in place.  The recursion
    follows the generator; [fuel] bounds the number of resumptions. *)
Fixpoint exec (fuel : nat) (P : GenParser) (state : ParserState)
    (it : GenState)
    : option (Completion (ParserResult V) * GenState) :=
  match fuel with
  | O => None
  | S fuel =>
      match P with
      | Plain p => Some (Normal (_run p state), it)
      | Resume value =>
          let result := _run value state in
          match failed_with_override result (errorMessage value) with
          | Some (l, m) =>
              Some (Normal (Parser.static_error m (expected l) (error_pos l)),
                    it)
          | None =>
              match result with
              | Left l => Some (Normal (Either.left l), it)
              | Right (v, newState) =>
                  let '(r, it') := next it v in
                  match gen_run r with
                  | Throw msg => Some (Throw msg, it')
                  | Normal nextParser => exec fuel nextParser newState it'
                  end
              end
          end
      end
  end.

(** Every value the generator yields in the course of a run that starts
    on [state] is a parser: the run follows the values the yielded
    parsers produce, and ends at the first failure or at the return. *)
Inductive yields_parsers_on : Generator -> ParserState -> Prop :=
| yields_parsers_return (r : Value) (state : ParserState) :
    yields_parsers_on (GReturn r) state
| yields_parsers_failure (p : Parser V) (k : V -> Generator)
    (state : ParserState) (e : ParserError) :
    _run p state = Left e ->
    yields_parsers_on (GYield (IsParser p) k) state
| yields_parsers_success (p : Parser V) (k : V -> Generator)
    (state : ParserState) (v : V) (newState : ParserState) :
    _run p state = Right (v, newState) ->
    yields_parsers_on (k v) newState ->
    yields_parsers_on (GYield (IsParser p) k) state.

(** The sequencing [gen] is specified to perform, written with the pure
    combinators: the yielded parsers chained by [flatMap], the final
    value as it is when it is a parser and wrapped by [pure] otherwise.
    (A yielded value that is not a parser is outside the precondition.) *)
Fixpoint sequence_spec (body : Generator) : Parser V :=
  match body with
  | GReturn (IsParser p) => p
  | GReturn (NotParser v) => Parser.pure v
  | GYield (IsParser p) k => Parser.flatMap p (fun v => sequence_spec (k v))
  | GYield (NotParser _) _ => Parser.fail (js "Expected a Parser") None
  end.
End Gen.

(** ** Fixtures of the examples

    The core has no primitive recogniser of its own; the examples use a
    literal matcher built on [Parser.succeed], and a small universe of
    values. *)

Inductive JSValue : Type :=
| VUndefined
| VString (s : JSString).

Definition literal (t : JSString) : Parser JSValue :=
  new_Parser
    (fun state =>
       if decide (take (length t) (input state) = t)
       then Parser.succeed (VString t) state (Some t)
       else Parser.static_error (js "no match") [t] (pos state))
    None.

(** String concatenation of two values, [undefined] when one of them is
    not a string. *)
Definition concat_values (a b : JSValue) : JSValue :=
  match a, b with
  | VString s, VString t => VString (s ++ t)
  | _, _ => VUndefined
  end.

(** The body of
    [function* () { const a = yield literal("a");
                    const b = yield literal("b"); return a + b; }]. *)
Definition ab_body : Generator (V := JSValue) :=
  GYield (IsParser (literal (js "a"))) (fun a =>
    GYield (IsParser (literal (js "b"))) (fun b =>
      GReturn (NotParser (concat_values a b)))).

(** Values among which parsers occur: a parser may produce a parser. *)
#[warnings="-register-all"]
Inductive NestedValue : Type :=
| NUndefined
| NNumber (n : Z)
| NParser (p : Parser NestedValue).

(** [value instanceof Parser] on these values. *)
Definition nested_instanceof (value : NestedValue)
    : option (Parser NestedValue) :=
  match value with
  | NParser p => Some p
  | _ => None
  end.

(** U+1F600, one code point written with two code units. *)
Definition grinning_face : JSString := [0xD83D; 0xDE00]%N.

Definition origin : SourcePosition := pos (initialState []).

(** ** Notions used in the statements *)

(** The number of line feeds of a text. *)
Fixpoint count_LF (c : JSString) : nat :=
  match c with
  | [] => O
  | u :: c' => ((if N.eqb u LF then 1 else 0) + count_LF c')%nat
  end.

(** Cutting a text between [a] and [b] separates a surrogate pair: [a]
    ends with a lead surrogate and [b] starts with a trail surrogate. *)
Definition splits_pair (a b : JSString) : bool :=
  match last a, head b with
  | Some u, Some v => is_high u && is_low v
  | _, _ => false
  end.

(** A position as the data model describes it: lines and columns count
    from 1, offsets from 0. *)
Definition well_formed (p : SourcePosition) : Prop :=
  1 <= line p /\ 1 <= column p /\ 0 <= offset p.

(** State [s] is where a parse of [src] stands after the text [consumed]:
    [consumed] followed by the remaining input is [src], and the position
    is that of [consumed] counted from the start. *)
Definition tracks (src consumed : JSString) (s : ParserState) : Prop :=
  src = consumed ++ input s /\
  pos s = updatePosition (pos (initialState src)) consumed.

(** The parser carries an override that the test [this.errorMessage]
    accepts. *)
Definition has_override {T : Type} (p : Parser T) : bool :=
  match errorMessage p with
  | Some (_ :: _) => true
  | _ => false
  end.

(** A result after the override substitution: a failure gets the
    override as message, a success is kept. *)
Definition overridden {T : Type} (errorMessage : option JSString)
    (result : ParserResult T) : ParserResult T :=
  match result with
  | Left e => Left (with_override errorMessage e)
  | Right r => Right r
  end.

(** The length of the text [updateState] takes as consumed, from the
    lengths [old] and [new] of the two inputs: the index
    [old - new], which [slice] counts from the end when it is negative. *)
Definition consumed_length (old new : nat) : nat :=
  if (new <=? old)%nat then (old - new)%nat else (2 * old - new)%nat.

(** The generator object of [*[Symbol.iterator]() { return yield this; }]:
    it yields the parser and returns the value sent back.  That value is
    a parse result; [instanceof_Parser] tells whether it is itself a
    parser, as the test [state.value instanceof Parser] of [gen] will
    see it. *)
Definition Symbol_iterator {V : Type}
    (instanceof_Parser : V -> option (Parser V)) (this : Parser V)
    : Generator :=
  GYield (IsParser this)
         (fun sent =>
            GReturn (match instanceof_Parser sent with
                     | Some parser => IsParser parser
                     | None => NotParser sent
                     end)).

(** The parser and the iterator state that [gen] and the continuation of
    [run] hold together: a parser that does not resume the iterator is
    only made when the iterator has completed. *)
Definition paired {V : Type} (P : GenParser (V := V)) (it : GenState (V := V))
    : Prop :=
  match P with
  | Plain _ => it = Completed
  | Resume _ => True
  end.

(** * Properties *)

(** ** Strings *)

Lemma string_iter_cons (u : code_unit) (s : JSString) :
  string_iter (u :: s) =
    match s with
    | v :: rest' =>
        if is_high u && is_low v
        then [u; v] :: string_iter rest'
        else [u] :: string_iter s
    | [] => [[u]]
    end.
Proof. destruct s; reflexivity. Qed.

(** Induction on strings two code units at a time, the way the string
    iterator reads them. *)
Lemma JSString_pair_ind (P : JSString -> Prop) :
  P [] ->
  (forall u, P [u]) ->
  (forall u v s, P s -> P (v :: s) -> P (u :: v :: s)) ->
  forall s, P s.
Proof.
  intros Hnil Hone Hstep s.
  assert (H : P s /\ forall u, P (u :: s)); [| exact (proj1 H)].
  induction s as [| v s [IH1 IH2]]; split; auto.
Qed.

Lemma string_iter_length (s : JSString) :
  (length (string_iter s) + surrogate_pairs s = length s)%nat.
Proof.
  induction s as [| u | u v s IH1 IH2] using JSString_pair_ind; try reflexivity.
  rewrite string_iter_cons.
  change (surrogate_pairs (u :: v :: s)) with
    (if is_high u && is_low v
     then S (surrogate_pairs s) else surrogate_pairs (v :: s)).
  destruct (is_high u && is_low v); cbn [length] in *; lia.
Qed.

Lemma is_low_LF : is_low LF = false.
Proof. reflexivity. Qed.

Lemma string_iter_snoc_LF (s : JSString) :
  string_iter (s ++ newline) = string_iter s ++ [newline].
Proof.
  induction s as [| u | u v s IH1 IH2] using JSString_pair_ind.
  - reflexivity.
  - change ([u] ++ newline) with [u; LF].
    rewrite string_iter_cons, is_low_LF, andb_false_r. reflexivity.
  - change ((u :: v :: s) ++ newline) with (u :: v :: (s ++ newline)).
    rewrite !(string_iter_cons u).
    destruct (is_high u && is_low v).
    + rewrite IH1. reflexivity.
    + change (v :: s ++ newline) with ((v :: s) ++ newline).
      rewrite IH2. reflexivity.
Qed.

(** An element of the iteration of a string without line feed is not
    ["\n"]. *)
Lemma string_iter_no_newline (s : JSString) :
  LF ∉ s -> newline ∉ string_iter s.
Proof.
  induction s as [| u | u v s IH1 IH2] using JSString_pair_ind; intros Hs.
  - cbn. apply not_elem_of_nil.
  - cbn. intros Hin. apply list_elem_of_singleton in Hin.
    apply Hs. injection Hin as <-. apply list_elem_of_here.
  - rewrite string_iter_cons.
    assert (Hu : u <> LF) by (intros ->; apply Hs, list_elem_of_here).
    assert (Hvs : LF ∉ v :: s)
      by (intros Hin; apply Hs, list_elem_of_further, Hin).
    assert (Hs' : LF ∉ s)
      by (intros Hin; apply Hvs, list_elem_of_further, Hin).
    destruct (is_high u && is_low v); intros Hin;
      apply elem_of_cons in Hin as [Heq | Hin].
    + discriminate Heq.
    + exact (IH1 Hs' Hin).
    + injection Heq as Heq. congruence.
    + exact (IH2 Hvs Hin).
Qed.

Lemma clamp_index_in_range (len i : Z) :
  0 <= i <= len -> clamp_index len i = i.
Proof. unfold clamp_index. intros H. destruct (Z.ltb_spec i 0); lia. Qed.

(** [s.slice(n)] with [n >= 0] drops the first [n] code units. *)
Lemma slice_from (s : JSString) (n : nat) :
  slice s (Z.of_nat n) None = drop n s.
Proof.
  unfold slice, clamp_index, js_length.
  destruct (Z.ltb_spec (Z.of_nat n) 0) as [? | _]; [lia |].
  destruct (Nat.le_gt_cases n (length s)) as [Hle | Hgt].
  - rewrite Z.min_l by lia. rewrite Nat2Z.id.
    apply take_ge. rewrite length_drop. lia.
  - rewrite Z.min_r by lia. rewrite Nat2Z.id.
    rewrite !drop_ge by lia. apply take_nil.
Qed.

(** [s.slice(0, n)] with [0 <= n <= s.length] keeps the first [n] code
    units. *)
Lemma slice_to (s : JSString) (n : nat) :
  (n <= length s)%nat -> slice s 0 (Some (Z.of_nat n)) = take n s.
Proof.
  intros Hn. unfold slice, js_length.
  rewrite (clamp_index_in_range _ 0) by lia.
  rewrite clamp_index_in_range by lia.
  cbn [Z.to_nat drop]. rewrite Z.sub_0_r, Nat2Z.id. reflexivity.
Qed.

(** ** Positions *)

Lemma fold_advance_offset (chars : list JSString) (p : SourcePosition) :
  offset (fold_left advance chars p) = offset p + Z.of_nat (length chars).
Proof.
  revert p. induction chars as [| ch chars IH]; intros p; cbn [fold_left length].
  - lia.
  - rewrite IH. unfold advance. destruct (decide (ch = newline)); cbn; lia.
Qed.

Lemma fold_advance_same_line (chars : list JSString) (p : SourcePosition) :
  newline ∉ chars ->
  line (fold_left advance chars p) = line p /\
  column (fold_left advance chars p) = column p + Z.of_nat (length chars).
Proof.
  revert p. induction chars as [| ch chars IH]; intros p Hn;
    cbn [fold_left length].
  - lia.
  - apply not_elem_of_cons in Hn as [Hch Hn].
    destruct (IH (advance p ch) Hn) as [-> ->].
    unfold advance. destruct (decide (ch = newline)); [congruence |].
    cbn. lia.
Qed.

Lemma updatePosition_nil (p : SourcePosition) : updatePosition p [] = p.
Proof. reflexivity. Qed.

Lemma js_length_iter (c : JSString) :
  Z.of_nat (length (string_iter c)) =
    js_length c - Z.of_nat (surrogate_pairs c).
Proof. unfold js_length. pose proof (string_iter_length c). lia. Qed.

Lemma LF_not_in_decide (s : JSString) :
  forallb (fun u => negb (N.eqb u LF)) s = true -> LF ∉ s.
Proof.
  intros H Hin. apply list_elem_of_In in Hin.
  rewrite forallb_forall in H. specialize (H _ Hin).
  rewrite N.eqb_refl in H. discriminate.
Qed.

(** ** Positions as binary64 numbers *)

Lemma two_pow_53 : 2 ^ 53 = 9007199254740992.
Proof. reflexivity. Qed.

(** Up to 2^53 in magnitude every integer is a double. *)
Lemma binary64_round_exact (z : Z) :
  - 2 ^ 53 <= z <= 2 ^ 53 -> Binary64.round z = z.
Proof.
  intros H. unfold Binary64.round.
  destruct (Z.leb_spec (Z.abs z) (2 ^ 53)); [reflexivity | lia].
Qed.

(** Below 2^53 the increment is exact. *)
Lemma binary64_succ_exact (x : Z) :
  - 2 ^ 53 <= x -> x + 1 <= 2 ^ 53 -> Binary64.succ x = x + 1.
Proof.
  intros H1 H2. unfold Binary64.succ. apply binary64_round_exact. lia.
Qed.

(** From 2^53 on it is not: at 2^53 the increment is lost, and above it
    the result is a neighbouring double. *)
Lemma binary64_succ_rounds :
  Binary64.succ (2 ^ 53) = 2 ^ 53 /\
  Binary64.succ (2 ^ 53 + 2) = 2 ^ 53 + 4 /\
  Binary64.succ (2 ^ 54) = 2 ^ 54.
Proof. repeat split. Qed.

(** A position at 2^53 no longer advances: two characters leave the
    offset, and a line feed leaves the line, where they were. *)
Lemma binary64_updatePosition_saturates :
  offset (Binary64.updatePosition (mkPos 1 1 (2 ^ 53)) (js "ab")) = 2 ^ 53 /\
  line (Binary64.updatePosition (mkPos (2 ^ 53) 1 0) newline) = 2 ^ 53.
Proof. split; reflexivity. Qed.

Lemma binary64_fold_offset (chars : list JSString) (q : SourcePosition) :
  - 2 ^ 53 <= offset q ->
  offset q + Z.of_nat (length chars) <= 2 ^ 53 ->
  offset (fold_left Binary64.advance chars q) =
    offset q + Z.of_nat (length chars).
Proof.
  revert q. induction chars as [| ch chars IH]; intros q Hlo Hhi;
    cbn [fold_left length] in *; [lia |].
  assert (Hstep : offset (Binary64.advance q ch) = offset q + 1).
  { unfold Binary64.advance.
    destruct (decide (ch = newline)); cbn [offset];
      apply binary64_succ_exact; lia. }
  rewrite IH; rewrite Hstep; lia.
Qed.

Lemma binary64_fold_same_line (chars : list JSString) (q : SourcePosition) :
  newline ∉ chars ->
  line (fold_left Binary64.advance chars q) = line q /\
  (- 2 ^ 53 <= column q ->
   column q + Z.of_nat (length chars) <= 2 ^ 53 ->
   column (fold_left Binary64.advance chars q) =
     column q + Z.of_nat (length chars)).
Proof.
  revert q. induction chars as [| ch chars IH]; intros q Hn;
    cbn [fold_left length].
  - split; [reflexivity | lia].
  - apply not_elem_of_cons in Hn as [Hch Hn].
    destruct (IH (Binary64.advance q ch) Hn) as [Hline Hcol].
    assert (Hadv : Binary64.advance q ch =
                   {| line := line q; column := Binary64.succ (column q);
                      offset := Binary64.succ (offset q) |}).
    { unfold Binary64.advance.
      destruct (decide (ch = newline)); [congruence | reflexivity]. }
    rewrite Hadv in *. cbn [line column] in *.
    split; [exact Hline |]. intros Hlo Hhi.
    rewrite Hcol; rewrite binary64_succ_exact; lia.
Qed.

(** Where the fields stay within 2^53 and the text has no surrogate
    pair, [updatePosition] advances the offset by [c.length]; without
    line feed it keeps the line and advances the column by [c.length];
    and a text whose only line feed is its last code unit gives column
    1 on the next line. *)
Lemma binary64_updatePosition_in_range (p : SourcePosition) (c : JSString) :
  surrogate_pairs c = 0%nat ->
  (- 2 ^ 53 <= offset p -> offset p + js_length c <= 2 ^ 53 ->
   offset (Binary64.updatePosition p c) = offset p + js_length c) /\
  (LF ∉ c -> - 2 ^ 53 <= column p -> column p + js_length c <= 2 ^ 53 ->
   line (Binary64.updatePosition p c) = line p /\
   column (Binary64.updatePosition p c) = column p + js_length c) /\
  (forall c', c = c' ++ newline -> LF ∉ c' ->
   - 2 ^ 53 <= line p -> line p + 1 <= 2 ^ 53 ->
   column (Binary64.updatePosition p c) = 1 /\
   line (Binary64.updatePosition p c) = line p + 1).
Proof.
  intros Hpairs. pose proof (js_length_iter c) as Hlen.
  rewrite Hpairs in Hlen. unfold Binary64.updatePosition.
  split; [| split].
  - intros Hlo Hhi. rewrite binary64_fold_offset; lia.
  - intros Hc Hlo Hhi.
    destruct (binary64_fold_same_line (string_iter c) p
                (string_iter_no_newline c Hc)) as [-> Hcol].
    split; [reflexivity |]. rewrite Hcol; lia.
  - intros c' -> Hc' Hlo Hhi.
    rewrite string_iter_snoc_LF, fold_left_app. cbn [fold_left].
    destruct (binary64_fold_same_line (string_iter c') p
                (string_iter_no_newline c' Hc')) as [Hline _].
    set (q := fold_left Binary64.advance (string_iter c') p) in *.
    unfold Binary64.advance. rewrite decide_True by reflexivity.
    cbn [column line]. rewrite Hline.
    split; [reflexivity | apply binary64_succ_exact; lia].
Qed.

(** C1 (code defect): the loop of [updatePosition] runs once per code
    point, while [consumeString] removes [c.length] code units of the
    same text.  For U+1F600, of length 2, the offset advances by 1, with
    exact and with binary64 arithmetic alike; after
    [consumeString(state, c)] the input has lost 2 code units and the
    offset, 1, no longer indexes the source. *)
Theorem updatePosition_offset_surrogate_pair :
  js_length grinning_face = 2 /\
  offset (Binary64.updatePosition origin grinning_face) = offset origin + 1 /\
  offset (updatePosition origin grinning_face) = offset origin + 1 /\
  let state := initialState (grinning_face ++ js "x") in
  let state' := consumeString state (Some grinning_face) in
  input state' = js "x" /\
  offset (pos state') = 1 /\
  slice (input state) (offset (pos state')) None <> input state' /\
  slice (input state) (js_length grinning_face) None = input state'.
Proof.
  split; [reflexivity |]. split; [reflexivity |]. split; [reflexivity |].
  cbv zeta. split; [reflexivity |]. split; [reflexivity |].
  split; [| reflexivity]. vm_compute. discriminate.
Qed.

(** C8 (code defect): the same loop advances the column once per code
    point.  U+1F600 holds no line feed and has length 2; the line is
    kept, but the column advances by 1, with exact and with binary64
    arithmetic alike. *)
Theorem updatePosition_column_surrogate_pair :
  (LF ∉ grinning_face) /\
  js_length grinning_face = 2 /\
  line (Binary64.updatePosition origin grinning_face) = line origin /\
  column (Binary64.updatePosition origin grinning_face) = column origin + 1 /\
  column (updatePosition origin grinning_face) = column origin + 1.
Proof.
  split; [apply LF_not_in_decide; reflexivity |].
  repeat split.
Qed.

(** ** States *)

(** C2: when [newState.input] is a suffix of [oldState.input],
    [updateState(oldState, newState)] takes as consumed text the leading
    prefix of [oldState.input] whose length is the difference of the two
    input lengths; the state it returns has [oldState.input] without that
    prefix as input, which is [newState.input], and
    [updatePosition(oldState.pos, consumed)] as position. *)
Theorem updateState_suffix (oldState newState : ParserState) :
  input newState `suffix_of` input oldState ->
  let n := js_length (input oldState) - js_length (input newState) in
  let consumed := take (Z.to_nat n) (input oldState) in
  js_length consumed = n /\
  updateState oldState newState =
    {| input := drop (length consumed) (input oldState);
       pos := updatePosition (pos oldState) consumed |} /\
  input (updateState oldState newState) = input newState.
Proof.
  intros [k Hk] n consumed. subst n consumed.
  unfold updateState, js_length. rewrite Hk.
  assert (Hn : Z.of_nat (length (k ++ input newState)) -
               Z.of_nat (length (input newState)) = Z.of_nat (length k))
    by (rewrite length_app; lia).
  rewrite Hn, Nat2Z.id.
  rewrite slice_to by (rewrite length_app; lia).
  rewrite take_app_length, slice_from, drop_app_length.
  repeat split; reflexivity.
Qed.

Lemma updateState_suffix_witness :
  let oldState := initialState (js "foobar") in
  let newState := {| input := js "bar"; pos := mkPos 1 4 3 |} in
  input newState `suffix_of` input oldState /\
  updateState oldState newState =
    {| input := js "bar"; pos := updatePosition (pos oldState) (js "foo") |}.
Proof.
  intros oldState newState.
  assert (H : input newState `suffix_of` input oldState)
    by (exists (js "foo"); reflexivity).
  split; [exact H |].
  exact (proj1 (proj2 (updateState_suffix oldState newState H))).
Defined.

(** C9: [consumeString(s, c)] returns the state whose input is [s.input]
    without its first [c.length] characters and whose position is
    [updatePosition(s.pos, c)]; without second argument, or with the empty
    string, it returns a state equal to [s]. *)
Theorem consumeString_spec (s : ParserState) (c : JSString) :
  consumeString s (Some c) =
    {| input := drop (length c) (input s);
       pos := updatePosition (pos s) c |} /\
  consumeString s None = s /\
  consumeString s (Some []) = s.
Proof.
  assert (H0 : slice (input s) 0 None = input s)
    by exact (slice_from (input s) 0).
  unfold consumeString. repeat split.
  - change (default 0 (js_length <$> Some c)) with (Z.of_nat (length c)).
    rewrite slice_from. reflexivity.
  - change (default 0 (js_length <$> None)) with 0.
    rewrite H0. destruct s; reflexivity.
  - change (default 0 (js_length <$> Some [])) with 0.
    rewrite H0. destruct s; reflexivity.
Qed.

(** ** Error-message overriding *)

Lemma override_test_left {T : Type} (e : ParserError) (em : option JSString) :
  match failed_with_override (T := T) (Left e) em with
  | Some (l, m) => Parser.static_error (T := T) m (expected l) (error_pos l)
  | None => Left e
  end = Left (with_override em e).
Proof. destruct em as [[| u m] |]; reflexivity. Qed.

Lemma override_test_right {T : Type} (r : T * ParserState)
    (em : option JSString) :
  failed_with_override (Right r) em = None.
Proof. destruct em as [[| u m] |]; reflexivity. Qed.

Lemma with_override_expected_pos (em : option JSString) (e : ParserError) :
  expected (with_override em e) = expected e /\
  error_pos (with_override em e) = error_pos e.
Proof. destruct em as [[| u m] |]; split; reflexivity. Qed.

Lemma run_failure {T : Type} (p : Parser T) (input : JSString)
    (e : ParserError) :
  _run p (initialState input) = Left e ->
  Parser.run p input = Left (with_override (errorMessage p) e).
Proof.
  intros H. unfold Parser.run. rewrite H. cbn [Either.isRight].
  apply override_test_left.
Qed.

Lemma run_failure_inv {T : Type} (p : Parser T) (input : JSString)
    (e : ParserError) :
  Parser.run p input = Left e ->
  exists e0, _run p (initialState input) = Left e0 /\
             e = with_override (errorMessage p) e0.
Proof.
  destruct (_run p (initialState input)) as [e0 | r] eqn:H.
  - rewrite (run_failure p input e0 H). intros [= <-]. eauto.
  - unfold Parser.run. rewrite H. discriminate.
Qed.

(** C3: where [p] fails with error [e], [p.error(m)] fails with message
    [m] and with the [expected] list and the [pos] of [e]; this holds for
    the transition function on every state and for [run] on every input. *)
Theorem error_replaces_message {T : Type} (p : Parser T) (m : JSString) :
  (forall state e,
     _run p state = Left e ->
     _run (Parser.error p m) state =
       Left (mkError m (expected e) (error_pos e))) /\
  (forall input e,
     Parser.run p input = Left e ->
     Parser.run (Parser.error p m) input =
       Left (mkError m (expected e) (error_pos e))).
Proof.
  split.
  - intros state e H. cbn. rewrite H. reflexivity.
  - intros input e H.
    apply run_failure_inv in H as (e0 & H0 & ->).
    destruct (with_override_expected_pos (errorMessage p) e0) as [-> ->].
    unfold Parser.run. cbn. rewrite H0. reflexivity.
Qed.

Lemma error_replaces_message_witness :
  Parser.run (literal (js "foo")) (js "bar") =
    Left (mkError (js "no match") [js "foo"] origin) /\
  Parser.run (Parser.error (literal (js "foo")) (js "custom")) (js "bar") =
    Left (mkError (js "custom") [js "foo"] origin).
Proof.
  assert (H : Parser.run (literal (js "foo")) (js "bar") =
              Left (mkError (js "no match") [js "foo"] origin))
    by reflexivity.
  split; [exact H |].
  exact (proj2 (error_replaces_message (literal (js "foo")) (js "custom"))
           (js "bar") _ H).
Defined.

(** C10: on every state where [p] succeeds, [p.error(m)] and
    [p.error2(fn)] succeed with the value and the state of [p]. *)
Theorem error_keeps_success {T : Type} (p : Parser T) (m : JSString)
    (fn : ParserError -> JSString) (state : ParserState)
    (value : T) (newState : ParserState) :
  _run p state = Right (value, newState) ->
  _run (Parser.error p m) state = Right (value, newState) /\
  _run (Parser.error2 p fn) state = Right (value, newState).
Proof. intros H. cbn. rewrite H. split; reflexivity. Qed.

Lemma error_keeps_success_witness :
  let p := literal (js "foo") in
  let state := initialState (js "foobar") in
  let newState := {| input := js "bar"; pos := mkPos 1 4 3 |} in
  _run p state = Right (VString (js "foo"), newState) /\
  _run (Parser.error p (js "custom")) state =
    Right (VString (js "foo"), newState) /\
  _run (Parser.error2 p message) state =
    Right (VString (js "foo"), newState).
Proof.
  intros p state newState.
  assert (H : _run p state = Right (VString (js "foo"), newState))
    by reflexivity.
  split; [exact H |].
  exact (error_keeps_success p (js "custom") message state _ _ H).
Defined.

(** ** Sequencing *)

Lemma flatMap_failure {A B : Type} (a : Parser A) (f : A -> Parser B)
    (state : ParserState) (e : ParserError) :
  _run a state = Left e ->
  _run (Parser.flatMap a f) state = Left (with_override (errorMessage a) e).
Proof.
  intros H. cbn. rewrite H.
  destruct (errorMessage a) as [[| u m] |]; reflexivity.
Qed.

Lemma flatMap_success {A B : Type} (a : Parser A) (f : A -> Parser B)
    (state : ParserState) (value : A) (newState : ParserState) :
  _run a state = Right (value, newState) ->
  _run (Parser.flatMap a f) state = _run (f value) newState.
Proof.
  intros H. cbn. rewrite H, override_test_right. reflexivity.
Qed.

(** C4: when [A] fails with [e], [A.flatMap(f)] fails with [e] after the
    override substitution of [A], on the state where [A] failed and under
    [run]; the continuation has no part in the result, which is the same
    for any two continuations. *)
Theorem flatMap_short_circuit {A B : Type} (a : Parser A) (input : JSString)
    (e : ParserError) :
  _run a (initialState input) = Left e ->
  (forall f : A -> Parser B,
     Parser.run (Parser.flatMap a f) input =
       Left (with_override (errorMessage a) e)) /\
  (forall f g : A -> Parser B,
     Parser.run (Parser.flatMap a f) input =
     Parser.run (Parser.flatMap a g) input).
Proof.
  intros H.
  assert (Hf : forall f : A -> Parser B,
             Parser.run (Parser.flatMap a f) input =
               Left (with_override (errorMessage a) e)).
  { intros f. rewrite (run_failure _ _ _ (flatMap_failure a f _ e H)).
    reflexivity. }
  split; [exact Hf |]. intros f g. rewrite (Hf f), (Hf g). reflexivity.
Qed.

Lemma flatMap_short_circuit_witness :
  let a := literal (js "foo") in
  let e := mkError (js "no match") [js "foo"] origin in
  _run a (initialState (js "bar")) = Left e /\
  Parser.run (Parser.flatMap a (fun _ => literal (js "bar"))) (js "bar") =
    Left e.
Proof.
  intros a e.
  assert (H : _run a (initialState (js "bar")) = Left e) by reflexivity.
  split; [exact H |].
  exact (proj1 (flatMap_short_circuit a (js "bar") e H)
           (fun _ => literal (js "bar"))).
Defined.

(** C7: [A.zip(B)] runs [A], then [B] on the state [A] returns.  When both
    succeed the result pairs the two values, with the final state of [B];
    when [A] fails the result is the failure of [A], whatever [B] is; when
    [A] succeeds and [B] fails the result is the failure of [B]. *)
Theorem zip_spec {A B : Type} (pa : Parser A) (pb : Parser B)
    (state : ParserState) :
  (forall a restA b restB,
     _run pa state = Right (a, restA) ->
     _run pb restA = Right (b, restB) ->
     _run (Parser.zip pa pb) state = Right ((a, b), restB)) /\
  (forall e,
     _run pa state = Left e ->
     forall pb' : Parser B, _run (Parser.zip pa pb') state = Left e) /\
  (forall a restA e,
     _run pa state = Right (a, restA) ->
     _run pb restA = Left e ->
     _run (Parser.zip pa pb) state = Left e).
Proof.
  repeat split.
  - intros a restA b restB Ha Hb. cbn. rewrite Ha. cbn. rewrite Hb.
    reflexivity.
  - intros e Ha pb'. cbn. rewrite Ha. reflexivity.
  - intros a restA e Ha Hb. cbn. rewrite Ha. cbn. rewrite Hb. reflexivity.
Qed.

Lemma zip_spec_witness :
  let foo := literal (js "foo") in
  let bar := literal (js "bar") in
  _run (Parser.zip foo bar) (initialState (js "foobar")) =
    Right ((VString (js "foo"), VString (js "bar")),
           {| input := []; pos := mkPos 1 7 6 |}) /\
  _run (Parser.zip foo bar) (initialState (js "barfoo")) =
    Left (mkError (js "no match") [js "foo"] origin) /\
  _run (Parser.zip foo bar) (initialState (js "foofoo")) =
    Left (mkError (js "no match") [js "bar"] (mkPos 1 4 3)).
Proof.
  intros foo bar. split; [| split].
  - apply (proj1 (zip_spec foo bar (initialState (js "foobar")))
             (VString (js "foo")) {| input := js "bar"; pos := mkPos 1 4 3 |});
      reflexivity.
  - apply (proj1 (proj2 (zip_spec foo bar (initialState (js "barfoo")))));
      reflexivity.
  - apply (proj2 (proj2 (zip_spec foo bar (initialState (js "foofoo"))))
             (VString (js "foo")) {| input := js "foo"; pos := mkPos 1 4 3 |});
      reflexivity.
Defined.

(** ** Records *)

Section BindProperties.
Context {V : Type}.
Implicit Types (p : Parser (gmap JSString V)) (k : JSString).
Implicit Types (other : Parser V + (gmap JSString V -> Parser V)).

Lemma bind_success p k other (state : ParserState)
    (value : gmap JSString V) (newState : ParserState) (b : V)
    (finalState : ParserState) :
  _run p state = Right (value, newState) ->
  _run (second_parser other value) newState = Right (b, finalState) ->
  _run (Parser.bind p k other) state =
    Right (<[k := b]> value, finalState).
Proof.
  intros Hp Hb. cbn. rewrite Hp, override_test_right. cbn.
  unfold second_parser in Hb. rewrite Hb. reflexivity.
Qed.

(** C6: [p.bind(k, other)] runs [p], then the second parser ([other]
    itself, or [other] applied to the record of [p]) on the state [p]
    returns; when both succeed the result is the record of [p] with
    field [k] set to the second value, with the final state of the
    second parser.  [bind("x", parserX)] followed by
    [bind("y", parserY)] gives a record that holds both values under
    [x] and [y], and the fields of the base record under other names. *)
Theorem bind_spec p k other (state : ParserState)
    (value : gmap JSString V) (newState : ParserState) :
  _run p state = Right (value, newState) ->
  (forall b finalState,
     _run (second_parser other value) newState = Right (b, finalState) ->
     _run (Parser.bind p k other) state =
       Right (<[k := b]> value, finalState)) /\
  (forall (parserX parserY : Parser V) vx sx vy sy,
     _run parserX newState = Right (vx, sx) ->
     _run parserY sx = Right (vy, sy) ->
     exists record,
       _run (Parser.bind (Parser.bind p (js "x") (inl parserX))
                         (js "y") (inl parserY)) state =
         Right (record, sy) /\
       record !! js "x" = Some vx /\
       record !! js "y" = Some vy /\
       forall j, j <> js "x" -> j <> js "y" -> record !! j = value !! j).
Proof.
  intros Hp. split.
  - intros b finalState Hb. exact (bind_success _ _ _ _ _ _ _ _ Hp Hb).
  - intros parserX parserY vx sx vy sy Hx Hy.
    exists (<[js "y" := vy]> (<[js "x" := vx]> value)).
    split; [| split; [| split]].
    + apply (bind_success _ _ (inl parserY) _ _ sx); [| exact Hy].
      apply (bind_success _ _ (inl parserX) _ _ newState); assumption.
    + rewrite lookup_insert_ne by discriminate. apply lookup_insert_eq.
    + apply lookup_insert_eq.
    + intros j Hjx Hjy. rewrite !lookup_insert_ne by congruence.
      reflexivity.
Qed.
End BindProperties.

Lemma bind_spec_witness :
  exists record,
    _run (Parser.bind (Parser.bind Parser.Do (js "x") (inl (literal (js "a"))))
                      (js "y") (inl (literal (js "b"))))
         (initialState (js "ab")) =
      Right (record, {| input := []; pos := mkPos 1 3 2 |}) /\
    record !! js "x" = Some (VString (js "a")) /\
    record !! js "y" = Some (VString (js "b")) /\
    forall j, j <> js "x" -> j <> js "y" ->
              record !! j = (∅ : gmap JSString JSValue) !! j.
Proof.
  apply (proj2 (bind_spec Parser.Do (js "x") (inl (literal (js "a")))
                  (initialState (js "ab")) ∅ (initialState (js "ab"))
                  eq_refl)
           (literal (js "a")) (literal (js "b"))
           (VString (js "a")) {| input := js "b"; pos := mkPos 1 2 1 |});
    reflexivity.
Defined.

(** ** Parser.gen *)

(** C5 (code defect): [gen] creates its iterator once, outside the
    transition function of the parser it returns, so the runs of that
    parser share it.  For the generator that yields [literal("a")], then
    [literal("b")], and returns the concatenation, the first run on
    ["ab"] gives ["ab"] with no input left, as the chain of the yielded
    parsers does on every run.  The second run of the same parser on
    ["ab"] resumes the completed iterator and succeeds with [undefined]
    after ["a"], leaving ["b"].  After a run that failed at the second
    parser, the iterator waits at the second [yield]: the next run sends
    the value of the first parser there and gives ["aa"], leaving
    ["b"]. *)
Theorem gen_second_run_differs :
  exists P it,
    gen VUndefined ab_body = (Normal P, it) /\
    _run (sequence_spec ab_body) (initialState (js "ab")) =
      Right (VString (js "ab"), {| input := []; pos := mkPos 1 3 2 |}) /\
    exec VUndefined 3 P (initialState (js "ab")) it =
      Some (Normal (Right (VString (js "ab"),
                           {| input := []; pos := mkPos 1 3 2 |})),
            Completed) /\
    exec VUndefined 3 P (initialState (js "ab")) Completed =
      Some (Normal (Right (VUndefined,
                           {| input := js "b"; pos := mkPos 1 2 1 |})),
            Completed) /\
    exists it1,
      exec VUndefined 3 P (initialState (js "ax")) it =
        Some (Normal (Left (mkError (js "no match") [js "b"] (mkPos 1 2 1))),
              it1) /\
      exec VUndefined 3 P (initialState (js "ab")) it1 =
        Some (Normal (Right (VString (js "aa"),
                             {| input := js "b"; pos := mkPos 1 2 1 |})),
              Completed).
Proof.
  eexists _, _. split; [reflexivity |].
  split; [reflexivity |]. split; [reflexivity |]. split; [reflexivity |].
  eexists. split; reflexivity.
Qed.

(** * Further properties *)

(** ** Either *)

(** X1: [isLeft] and [isRight] exclude each other on every value; [match]
    with the two constructors as handlers gives the value back; and a
    function applied to the result of [match] can be moved into both
    handlers. *)
Theorem Either_match_laws {R L B C : Type} (e : Either R L)
    (onLeft : L -> B) (onRight : R -> B) (h : B -> C) :
  Either.isLeft e = negb (Either.isRight e) /\
  Either.match_ e Either.left Either.right = e /\
  h (Either.match_ e onLeft onRight) =
    Either.match_ e (fun l => h (onLeft l)) (fun r => h (onRight r)).
Proof. destruct e; repeat split. Qed.

(** ** Positions, continued *)

Lemma is_high_not_LF (u : code_unit) : is_high u = true -> N.eqb u LF = false.
Proof.
  unfold is_high, LF. intros H. apply andb_prop in H as [H _].
  apply N.leb_le in H. apply N.eqb_neq. lia.
Qed.

Lemma is_low_not_LF (u : code_unit) : is_low u = true -> N.eqb u LF = false.
Proof.
  unfold is_low, LF. intros H. apply andb_prop in H as [H _].
  apply N.leb_le in H. apply N.eqb_neq. lia.
Qed.

Lemma binary64_advance_line (p : SourcePosition) (u : code_unit) :
  - 2 ^ 53 <= line p ->
  line p + Z.of_nat (if N.eqb u LF then 1 else 0) <= 2 ^ 53 ->
  line (Binary64.advance p [u]) =
    line p + Z.of_nat (if N.eqb u LF then 1 else 0).
Proof.
  intros Hlo Hhi. unfold Binary64.advance, newline.
  destruct (N.eqb_spec u LF) as [-> | Hne].
  - rewrite decide_True by reflexivity. cbn [line].
    apply binary64_succ_exact; [exact Hlo | exact Hhi].
  - rewrite decide_False by congruence. cbn. lia.
Qed.

Lemma binary64_advance_pair_line (p : SourcePosition) (u v : code_unit) :
  line (Binary64.advance p [u; v]) = line p.
Proof.
  unfold Binary64.advance. rewrite decide_False by discriminate.
  reflexivity.
Qed.

(** X2: while the line stays within 2^53, [updatePosition] advances it by
    exactly the number of line feeds of the consumed text, whatever else
    the text holds. *)
Theorem updatePosition_line_count (p : SourcePosition) (c : JSString) :
  - 2 ^ 53 <= line p ->
  line p + Z.of_nat (count_LF c) <= 2 ^ 53 ->
  line (Binary64.updatePosition p c) = line p + Z.of_nat (count_LF c).
Proof.
  unfold Binary64.updatePosition. revert p.
  induction c as [| u | u v s IH1 IH2] using JSString_pair_ind;
    intros p Hlo Hhi.
  - cbn. lia.
  - cbn [string_iter fold_left]. cbn [count_LF] in *.
    rewrite binary64_advance_line; lia.
  - rewrite string_iter_cons.
    change (count_LF (u :: v :: s)) with
      ((if N.eqb u LF then 1 else 0) + count_LF (v :: s))%nat in *.
    destruct (is_high u && is_low v) eqn:Hpair.
    + apply andb_prop in Hpair as [Hu Hv].
      cbn [count_LF] in *.
      rewrite (is_high_not_LF u Hu), (is_low_not_LF v Hv) in *.
      cbn [fold_left].
      rewrite IH1; rewrite binary64_advance_pair_line; lia.
    + cbn [fold_left].
      assert (Hstep : line (Binary64.advance p [u]) =
                      line p + Z.of_nat (if N.eqb u LF then 1 else 0))
        by (apply binary64_advance_line; lia).
      rewrite IH2; rewrite Hstep; lia.
Qed.

Lemma updatePosition_line_count_witness :
  line (Binary64.updatePosition origin (js "a" ++ newline ++ js "b" ++ newline))
    = line origin + 2.
Proof.
  apply (updatePosition_line_count origin
           (js "a" ++ newline ++ js "b" ++ newline));
    vm_compute; discriminate.
Defined.

Lemma fold_advance_well_formed (chars : list JSString) (p : SourcePosition) :
  well_formed p ->
  well_formed (fold_left advance chars p) /\
  line p <= line (fold_left advance chars p) /\
  offset p <= offset (fold_left advance chars p).
Proof.
  revert p. induction chars as [| ch chars IH]; intros p Hp;
    cbn [fold_left].
  - repeat split; try apply Hp; lia.
  - destruct Hp as (Hl & Hc & Ho).
    assert (Hstep : well_formed (advance p ch) /\
                    line p <= line (advance p ch) /\
                    offset p <= offset (advance p ch)).
    { unfold well_formed, advance.
      destruct (decide (ch = newline)); cbn; lia. }
    destruct Hstep as (Hwf & Hl' & Ho').
    destruct (IH _ Hwf) as (Hwf' & Hl'' & Ho'').
    split; [exact Hwf' | lia].
Qed.

(** X3: from a position with [line >= 1], [column >= 1] and [offset >= 0],
    [updatePosition] returns a position with the same bounds, and neither
    the line nor the offset decreases. *)
Theorem updatePosition_well_formed (p : SourcePosition) (c : JSString) :
  well_formed p ->
  well_formed (updatePosition p c) /\
  line p <= line (updatePosition p c) /\
  offset p <= offset (updatePosition p c).
Proof. apply fold_advance_well_formed. Qed.

Lemma updatePosition_well_formed_witness :
  well_formed origin /\
  well_formed (updatePosition origin (js "a" ++ newline ++ grinning_face)).
Proof.
  assert (H : well_formed origin) by (unfold well_formed; cbn; lia).
  split; [exact H |].
  exact (proj1 (updatePosition_well_formed origin
                  (js "a" ++ newline ++ grinning_face) H)).
Defined.

Lemma splits_pair_nil_l (b : JSString) : splits_pair [] b = false.
Proof. reflexivity. Qed.

Lemma splits_pair_cons (u v : code_unit) (s b : JSString) :
  splits_pair (u :: v :: s) b = splits_pair (v :: s) b.
Proof. reflexivity. Qed.

Lemma splits_pair_tail (v : code_unit) (s b : JSString) :
  splits_pair (v :: s) b = false -> splits_pair s b = false.
Proof. destruct s as [| w s]; [reflexivity | exact id]. Qed.

(** The iteration of a concatenation is the concatenation of the
    iterations, unless the cut separates a surrogate pair. *)
Lemma string_iter_app (a b : JSString) :
  splits_pair a b = false ->
  string_iter (a ++ b) = string_iter a ++ string_iter b.
Proof.
  induction a as [| u | u v s IH1 IH2] using JSString_pair_ind; intros Hcut.
  - reflexivity.
  - change ([u] ++ b) with (u :: b). rewrite string_iter_cons.
    destruct b as [| w b]; [reflexivity |].
    unfold splits_pair in Hcut. cbn in Hcut. rewrite Hcut. reflexivity.
  - rewrite splits_pair_cons in Hcut.
    change ((u :: v :: s) ++ b) with (u :: v :: (s ++ b)).
    rewrite !(string_iter_cons u).
    destruct (is_high u && is_low v).
    + rewrite IH1 by exact (splits_pair_tail _ _ _ Hcut). reflexivity.
    + change (v :: s ++ b) with ((v :: s) ++ b).
      rewrite IH2 by exact Hcut. reflexivity.
Qed.

(** X4: position tracking composes over concatenation: advancing by [a]
    and then by [b] is advancing by [a ++ b], provided the cut does not
    separate a surrogate pair. *)
Theorem updatePosition_app (p : SourcePosition) (a b : JSString) :
  splits_pair a b = false ->
  updatePosition p (a ++ b) = updatePosition (updatePosition p a) b.
Proof.
  intros Hcut. unfold updatePosition.
  rewrite (string_iter_app a b Hcut). apply fold_left_app.
Qed.

Lemma updatePosition_app_witness :
  splits_pair (js "let" ++ newline) grinning_face = false /\
  updatePosition origin ((js "let" ++ newline) ++ grinning_face) =
    updatePosition (updatePosition origin (js "let" ++ newline))
                   grinning_face.
Proof.
  split; [reflexivity |].
  apply (updatePosition_app origin (js "let" ++ newline) grinning_face).
  reflexivity.
Defined.

Lemma is_high_not_low (u : code_unit) : is_high u = true -> is_low u = false.
Proof.
  unfold is_high, is_low. intros H. apply andb_prop in H as [_ H].
  apply N.leb_le in H. apply andb_false_intro1. apply N.leb_gt. lia.
Qed.

Lemma splits_pair_high_next (x : JSString) (h : code_unit) (y : JSString) :
  is_high h = true -> splits_pair x (h :: y) = false.
Proof.
  intros Hh. unfold splits_pair. cbn [head].
  destruct (last x); [| reflexivity].
  rewrite (is_high_not_low h Hh). apply andb_false_r.
Qed.

(** X5: when the cut does separate a surrogate pair, the two halves are
    visited as two characters: while the offset stays within 2^53,
    advancing by [x + h] and then by [l + y] gives an offset one more
    than advancing by the whole text. *)
Theorem updatePosition_split_pair (p : SourcePosition) (x y : JSString)
    (h l : code_unit) :
  is_high h = true -> is_low l = true ->
  - 2 ^ 53 <= offset p ->
  offset p + js_length ((x ++ [h]) ++ l :: y) <= 2 ^ 53 ->
  offset (Binary64.updatePosition (Binary64.updatePosition p (x ++ [h]))
                                  (l :: y)) =
    offset (Binary64.updatePosition p ((x ++ [h]) ++ l :: y)) + 1.
Proof.
  intros Hh Hl Hlo Hhi. unfold Binary64.updatePosition.
  assert (Hxh : string_iter (x ++ [h]) = string_iter x ++ [[h]])
    by exact (string_iter_app x [h] (splits_pair_high_next x h [] Hh)).
  assert (Hly : string_iter (l :: y) = [l] :: string_iter y).
  { rewrite string_iter_cons. destruct y as [| v y']; [reflexivity |].
    destruct (is_high l) eqn:Hc; [| reflexivity].
    apply is_high_not_low in Hc. congruence. }
  assert (Hall : string_iter ((x ++ [h]) ++ l :: y) =
                 string_iter x ++ [h; l] :: string_iter y).
  { rewrite <- app_assoc. change ([h] ++ l :: y) with (h :: l :: y).
    rewrite (string_iter_app x) by exact (splits_pair_high_next x h _ Hh).
    rewrite (string_iter_cons h (l :: y)), Hh, Hl. reflexivity. }
  pose proof (string_iter_length x) as Hx.
  pose proof (string_iter_length y) as Hy.
  unfold js_length in Hhi. rewrite !length_app in Hhi. cbn [length] in Hhi.
  rewrite Hxh, Hly, Hall.
  assert (Hq : offset (fold_left Binary64.advance (string_iter x ++ [[h]]) p)
               = offset p + Z.of_nat (length (string_iter x)) + 1).
  { rewrite binary64_fold_offset; rewrite ?length_app; cbn [length]; lia. }
  rewrite (binary64_fold_offset ([l] :: string_iter y));
    rewrite ?Hq; cbn [length]; try lia.
  rewrite (binary64_fold_offset (string_iter x ++ [h; l] :: string_iter y));
    rewrite ?length_app; cbn [length]; lia.
Qed.

Lemma updatePosition_split_pair_witness :
  offset (Binary64.updatePosition
            (Binary64.updatePosition origin (js "a" ++ [0xD83D%N]))
            (0xDE00%N :: js "b")) =
    offset (Binary64.updatePosition origin
              ((js "a" ++ [0xD83D%N]) ++ 0xDE00%N :: js "b")) + 1.
Proof.
  apply (updatePosition_split_pair origin (js "a") (js "b"));
    try reflexivity; vm_compute; discriminate.
Defined.

Lemma string_iter_LF_cons (b : JSString) :
  string_iter (LF :: b) = newline :: string_iter b.
Proof. rewrite string_iter_cons. destruct b; reflexivity. Qed.

Lemma splits_pair_LF (a b : JSString) : splits_pair a (LF :: b) = false.
Proof.
  unfold splits_pair. cbn [head]. destruct (last a); [| reflexivity].
  rewrite is_low_LF. apply andb_false_r.
Qed.

(** X6: the column after [updatePosition] counts from the last line feed:
    for a text [a + "\n" + b] with no line feed in [b], the column is 1
    plus the number of characters visited in [b], whatever the starting
    column and whatever [a] holds. *)
Theorem updatePosition_column_after_newline (p : SourcePosition)
    (a b : JSString) :
  LF ∉ b ->
  column (updatePosition p (a ++ LF :: b)) =
    1 + js_length b - Z.of_nat (surrogate_pairs b).
Proof.
  intros Hb. unfold updatePosition.
  rewrite (string_iter_app a (LF :: b) (splits_pair_LF a b)).
  rewrite string_iter_LF_cons, fold_left_app. cbn [fold_left].
  set (q := fold_left advance (string_iter a) p).
  destruct (fold_advance_same_line (string_iter b) (advance q newline)
              (string_iter_no_newline b Hb)) as [_ ->].
  unfold advance. rewrite decide_True by reflexivity. cbn [column].
  rewrite js_length_iter. lia.
Qed.

Lemma updatePosition_column_after_newline_witness :
  column (updatePosition origin (js "let x" ++ LF :: js "in")) = 3.
Proof.
  apply (updatePosition_column_after_newline origin (js "let x") (js "in")).
  apply LF_not_in_decide. reflexivity.
Defined.

(** ** States, continued *)

Lemma consumeString_Some (s : ParserState) (c : JSString) :
  consumeString s (Some c) =
    {| input := drop (length c) (input s);
       pos := updatePosition (pos s) c |}.
Proof.
  unfold consumeString.
  change (default 0 (js_length <$> Some c)) with (Z.of_nat (length c)).
  rewrite slice_from. reflexivity.
Qed.

(** X7: [consumeString] never looks at the text it is told was consumed,
    only at its length: the remaining input is shorter by [c.length], and
    empty when [c] is longer than the input. *)
Theorem consumeString_length (s : ParserState) (c : JSString) :
  js_length (input (consumeString s (Some c))) =
    Z.max 0 (js_length (input s) - js_length c) /\
  (js_length (input s) <= js_length c ->
   input (consumeString s (Some c)) = []).
Proof.
  rewrite consumeString_Some. cbn [input]. unfold js_length. split.
  - rewrite length_drop. lia.
  - intros H. apply drop_ge. lia.
Qed.

Lemma consumeString_length_witness :
  input (consumeString (initialState (js "ab")) (Some (js "xyz"))) = [].
Proof.
  apply (proj2 (consumeString_length (initialState (js "ab")) (js "xyz"))).
  vm_compute. discriminate.
Defined.

(** X8: consuming [a] and then [b] is consuming [a ++ b], input and
    position alike, provided the cut does not separate a surrogate
    pair. *)
Theorem consumeString_app (s : ParserState) (a b : JSString) :
  splits_pair a b = false ->
  consumeString (consumeString s (Some a)) (Some b) =
    consumeString s (Some (a ++ b)).
Proof.
  intros Hcut. rewrite !consumeString_Some. cbn [input pos].
  unfold updatePosition.
  rewrite (string_iter_app a b Hcut), fold_left_app.
  rewrite drop_drop, length_app. reflexivity.
Qed.

Lemma consumeString_app_witness :
  splits_pair (js "foo") (js "bar") = false /\
  consumeString (consumeString (initialState (js "foobar!")) (Some (js "foo")))
                (Some (js "bar")) =
    consumeString (initialState (js "foobar!")) (Some (js "foo" ++ js "bar")).
Proof.
  split; [reflexivity |].
  apply (consumeString_app (initialState (js "foobar!")) (js "foo") (js "bar")).
  reflexivity.
Defined.

(** [updateState] is [consumeString] of a prefix of the old input, whose
    length depends on the lengths of the two inputs only. *)
Lemma updateState_consumed (oldState newState : ParserState) :
  updateState oldState newState =
    consumeString oldState
      (Some (take (consumed_length (length (input oldState))
                                   (length (input newState)))
                  (input oldState))).
Proof.
  rewrite consumeString_Some. unfold updateState.
  set (old := input oldState). set (new := input newState).
  assert (Hslice : slice old 0 (Some (js_length old - js_length new)) =
                   take (consumed_length (length old) (length new)) old).
  { assert (Hfrom : clamp_index (js_length old) 0 = 0)
      by (apply clamp_index_in_range; unfold js_length; lia).
    assert (Hto : Z.to_nat (clamp_index (js_length old)
                              (js_length old - js_length new)) =
                  consumed_length (length old) (length new)).
    { unfold clamp_index, js_length, consumed_length.
      destruct (Nat.leb_spec (length new) (length old));
        destruct (Z.ltb_spec
                    (Z.of_nat (length old) - Z.of_nat (length new)) 0);
        lia. }
    unfold slice. rewrite Hfrom, Z.sub_0_r, Hto. reflexivity. }
  rewrite Hslice. unfold js_length. rewrite slice_from. reflexivity.
Qed.

(** X9: when the old input is the text [c] followed by the new input,
    [updateState] and [consumeString] agree: re-anchoring on the new state
    is consuming [c]. *)
Theorem updateState_consumeString (oldState newState : ParserState)
    (c : JSString) :
  input oldState = c ++ input newState ->
  updateState oldState newState = consumeString oldState (Some c).
Proof.
  intros H. rewrite updateState_consumed, H. f_equal. f_equal.
  unfold consumed_length. rewrite length_app.
  rewrite (proj2 (Nat.leb_le _ _)) by lia.
  replace (length c + length (input newState) - length (input newState))%nat
    with (length c) by lia.
  apply take_app_length.
Qed.

Lemma updateState_consumeString_witness :
  let oldState := initialState (js "foobar") in
  let newState := {| input := js "bar"; pos := mkPos 1 4 3 |} in
  updateState oldState newState = consumeString oldState (Some (js "foo")).
Proof.
  intros oldState newState.
  apply (updateState_consumeString oldState newState (js "foo")).
  reflexivity.
Defined.

(** X10: [updateState] uses nothing of the new state but the length of
    its input: neither its position nor the content of its input changes
    the result. *)
Theorem updateState_length_only (oldState new1 new2 : ParserState) :
  length (input new1) = length (input new2) ->
  updateState oldState new1 = updateState oldState new2.
Proof. intros H. rewrite !updateState_consumed, H. reflexivity. Qed.

Lemma updateState_length_only_witness :
  updateState (initialState (js "foobar"))
              {| input := js "bar"; pos := mkPos 1 4 3 |} =
  updateState (initialState (js "foobar"))
              {| input := js "xyz"; pos := mkPos 9 9 9 |}.
Proof.
  apply (updateState_length_only (initialState (js "foobar"))).
  reflexivity.
Defined.

(** X11: outside its precondition [updateState] raises no error.  When
    the new input is longer than the old one, the negative length
    difference is an index counted from the end: the first
    [2 * old.length - new.length] characters are taken as consumed, and
    the old state is returned unchanged when this is not positive. *)
Theorem updateState_longer_input (oldState newState : ParserState) :
  (length (input oldState) < length (input newState))%nat ->
  updateState oldState newState =
    consumeString oldState
      (Some (take (2 * length (input oldState) - length (input newState))
                  (input oldState))) /\
  ((2 * length (input oldState) <= length (input newState))%nat ->
   updateState oldState newState = oldState).
Proof.
  intros Hlen.
  assert (H : updateState oldState newState =
              consumeString oldState
                (Some (take (2 * length (input oldState) -
                             length (input newState))
                            (input oldState)))).
  { rewrite updateState_consumed. unfold consumed_length.
    rewrite (proj2 (Nat.leb_gt _ _)) by lia. reflexivity. }
  split; [exact H |]. intros H2. rewrite H, consumeString_Some.
  replace (2 * length (input oldState) - length (input newState))%nat
    with O by lia.
  destruct oldState; reflexivity.
Qed.

Lemma updateState_longer_input_witness :
  let oldState := initialState (js "abc") in
  updateState oldState (initialState (js "abcd")) =
    consumeString oldState (Some (js "ab")) /\
  updateState oldState (initialState (js "abcdefg")) = oldState.
Proof.
  intros oldState.
  assert (H4 : (length (input oldState) <
                length (input (initialState (js "abcd"))))%nat)
    by (vm_compute; lia).
  assert (H7 : (length (input oldState) <
                length (input (initialState (js "abcdefg"))))%nat)
    by (vm_compute; lia).
  split.
  - exact (proj1 (updateState_longer_input oldState _ H4)).
  - apply (proj2 (updateState_longer_input oldState _ H7)).
    vm_compute. lia.
Defined.

(** X12: position bookkeeping is an invariant of consumption.  The
    initial state tracks the source with nothing consumed; and when a
    state tracks the source after [consumed], consuming a text [c] that
    the remaining input starts with, by [consumeString] or by
    [Parser.succeed], gives a state that tracks the source after
    [consumed ++ c], provided the cut does not separate a surrogate
    pair. *)
Theorem consumeString_tracks {T : Type} (src consumed c : JSString)
    (s : ParserState) (value : T) :
  tracks src [] (initialState src) /\
  (tracks src consumed s ->
   c `prefix_of` input s ->
   splits_pair consumed c = false ->
   tracks src (consumed ++ c) (consumeString s (Some c)) /\
   exists s', Parser.succeed value s (Some c) = Right (value, s') /\
              tracks src (consumed ++ c) s').
Proof.
  split; [split; reflexivity |].
  intros [Hsrc Hpos] [rest Hrest] Hcut.
  assert (H : tracks src (consumed ++ c) (consumeString s (Some c))).
  { rewrite consumeString_Some. split; cbn [input pos].
    - rewrite Hsrc, Hrest, drop_app_length, app_assoc. reflexivity.
    - rewrite Hpos. unfold updatePosition.
      rewrite (string_iter_app consumed c Hcut), fold_left_app.
      reflexivity. }
  split; [exact H |]. eexists. split; [reflexivity | exact H].
Qed.

Lemma consumeString_tracks_witness :
  let s := {| input := js "bar!"; pos := mkPos 1 4 3 |} in
  tracks (js "foobar!") (js "foo") s /\
  tracks (js "foobar!") (js "foo" ++ js "bar")
         (consumeString s (Some (js "bar"))).
Proof.
  intros s.
  assert (H : tracks (js "foobar!") (js "foo") s) by (split; reflexivity).
  split; [exact H |].
  apply (proj2 (consumeString_tracks (T := JSValue) (js "foobar!") (js "foo")
                  (js "bar") s VUndefined) H).
  - exists (js "!"). reflexivity.
  - reflexivity.
Defined.

(** X13: for a state that tracks the source after a text without
    surrogate pair, the offset is the number of characters consumed and
    indexes the source: the remaining input is the source from [offset]
    on. *)
Theorem tracks_offset (src consumed : JSString) (s : ParserState) :
  tracks src consumed s ->
  surrogate_pairs consumed = 0%nat ->
  offset (pos s) = js_length consumed /\
  input s = slice src (offset (pos s)) None.
Proof.
  intros [Hsrc Hpos] Hpairs.
  assert (Hoff : offset (pos s) = js_length consumed).
  { rewrite Hpos. unfold updatePosition.
    rewrite fold_advance_offset, js_length_iter, Hpairs. cbn. lia. }
  split; [exact Hoff |].
  rewrite Hoff. unfold js_length. rewrite slice_from, Hsrc.
  rewrite drop_app_length. reflexivity.
Qed.

Lemma tracks_offset_witness :
  let s := {| input := js "bar!"; pos := mkPos 1 4 3 |} in
  offset (pos s) = 3 /\ input s = slice (js "foobar!") 3 None.
Proof.
  intros s.
  apply (tracks_offset (js "foobar!") (js "foo") s);
    [split; reflexivity | reflexivity].
Defined.

(** ** The combinator algebra *)

Lemma with_override_none {T : Type} (p : Parser T) (e : ParserError) :
  has_override p = false -> with_override (errorMessage p) e = e.
Proof.
  unfold has_override, with_override.
  destruct (errorMessage p) as [[| u m] |]; [reflexivity | discriminate |
                                              reflexivity].
Qed.

Lemma overridden_none {T U : Type} (p : Parser T) (r : ParserResult U) :
  has_override p = false -> overridden (errorMessage p) r = r.
Proof.
  intros H. destruct r as [e | x]; cbn; [| reflexivity].
  rewrite (with_override_none p e H). reflexivity.
Qed.

Lemma map_run {A B : Type} (p : Parser A) (f : A -> B) (s : ParserState) :
  _run (Parser.map p f) s =
    match _run p s with
    | Left e => Left (with_override (errorMessage p) e)
    | Right (v, s') => Right (f v, s')
    end.
Proof.
  cbn. destruct (_run p s) as [e | [v s']].
  - destruct (errorMessage p) as [[| u m] |]; reflexivity.
  - rewrite override_test_right. reflexivity.
Qed.

Lemma flatMap_run {A B : Type} (p : Parser A) (f : A -> Parser B)
    (s : ParserState) :
  _run (Parser.flatMap p f) s =
    match _run p s with
    | Left e => Left (with_override (errorMessage p) e)
    | Right (v, s') => _run (f v) s'
    end.
Proof.
  destruct (_run p s) as [e | [v s']] eqn:H.
  - exact (flatMap_failure p f s e H).
  - exact (flatMap_success p f s v s' H).
Qed.

(** X14: [run] is the transition function on the initial state
    [(1, 1, 0)], followed by the override substitution on a failure; a
    success is returned as it is, and without override [run] is the
    transition function itself. *)
Theorem run_spec {T : Type} (p : Parser T) (input : JSString) :
  Parser.run p input =
    overridden (errorMessage p)
      (_run p {| input := input; pos := mkPos 1 1 0 |}) /\
  (has_override p = false ->
   Parser.run p input = _run p {| input := input; pos := mkPos 1 1 0 |}).
Proof.
  assert (H : Parser.run p input =
              overridden (errorMessage p) (_run p (initialState input))).
  { destruct (_run p (initialState input)) as [e | r] eqn:Hp.
    - rewrite (run_failure p input e Hp). reflexivity.
    - unfold Parser.run. rewrite Hp. reflexivity. }
  split; [exact H |]. intros Hno. rewrite H. apply overridden_none, Hno.
Qed.

Lemma run_spec_witness :
  Parser.run (literal (js "foo")) (js "foobar") =
    _run (literal (js "foo")) {| input := js "foobar"; pos := mkPos 1 1 0 |}.
Proof.
  apply (proj2 (run_spec (literal (js "foo")) (js "foobar"))). reflexivity.
Defined.

(** X15: [map] is a functor on transition functions: mapping [f] and then
    [g] is mapping their composition, on every parser and state; and
    mapping the identity gives the parser's own results after its
    override substitution, that is the parser's own results when it has
    no override. *)
Theorem map_functor {A B C : Type} (p : Parser A) (f : A -> B) (g : B -> C)
    (s : ParserState) :
  _run (Parser.map (Parser.map p f) g) s =
    _run (Parser.map p (fun a => g (f a))) s /\
  _run (Parser.map p (fun a => a)) s =
    overridden (errorMessage p) (_run p s) /\
  (has_override p = false -> _run (Parser.map p (fun a => a)) s = _run p s).
Proof.
  assert (Hid : _run (Parser.map p (fun a => a)) s =
                overridden (errorMessage p) (_run p s)).
  { rewrite map_run. destruct (_run p s) as [e | [v s']]; reflexivity. }
  split; [| split; [exact Hid |]].
  - rewrite !map_run. destruct (_run p s) as [e | [v s']]; reflexivity.
  - intros Hno. rewrite Hid. apply overridden_none, Hno.
Qed.

Lemma map_functor_witness :
  _run (Parser.map (literal (js "foo")) (fun a => a))
       (initialState (js "foobar")) =
    _run (literal (js "foo")) (initialState (js "foobar")).
Proof.
  apply (proj2 (proj2 (map_functor (literal (js "foo")) (fun a => a)
                         (fun a => a) (initialState (js "foobar"))))).
  reflexivity.
Defined.

(** X16: [map] is [flatMap] into [pure]: [p.map(f)] and
    [p.flatMap((a) => Parser.pure(f(a)))] have the same result on every
    state. *)
Theorem map_as_flatMap {A B : Type} (p : Parser A) (f : A -> B)
    (s : ParserState) :
  _run (Parser.map p f) s =
    _run (Parser.flatMap p (fun a => Parser.pure (f a))) s.
Proof.
  rewrite map_run, flatMap_run.
  destruct (_run p s) as [e | [v s']]; reflexivity.
Qed.

(** X17: [pure] and [flatMap] satisfy the monad laws on transition
    functions.  [pure(a).flatMap(f)] is [f(a)]; [p.flatMap(pure)] is [p]
    after its override substitution; and [flatMap] is associative when
    the parsers the first continuation returns carry no override. *)
Theorem flatMap_monad_laws {A B C : Type} (p : Parser A) (a : A)
    (f : A -> Parser B) (g : B -> Parser C) (s : ParserState) :
  _run (Parser.flatMap (Parser.pure a) f) s = _run (f a) s /\
  _run (Parser.flatMap p Parser.pure) s =
    overridden (errorMessage p) (_run p s) /\
  ((forall x, has_override (f x) = false) ->
   _run (Parser.flatMap (Parser.flatMap p f) g) s =
     _run (Parser.flatMap p (fun x => Parser.flatMap (f x) g)) s).
Proof.
  split; [reflexivity | split].
  - rewrite flatMap_run. destruct (_run p s) as [e | [v s']]; reflexivity.
  - intros Hf. rewrite !flatMap_run.
    destruct (_run p s) as [e | [v s']]; [reflexivity |].
    rewrite flatMap_run. destruct (_run (f v) s') as [e | [w s'']];
      [| reflexivity].
    rewrite (with_override_none (f v) e (Hf v)). reflexivity.
Qed.

Lemma flatMap_monad_laws_witness :
  let p := literal (js "a") in
  let f := fun _ : JSValue => literal (js "b") in
  let g := fun _ : JSValue => literal (js "c") in
  _run (Parser.flatMap (Parser.flatMap p f) g) (initialState (js "abc")) =
    _run (Parser.flatMap p (fun x => Parser.flatMap (f x) g))
         (initialState (js "abc")).
Proof.
  intros p f g.
  apply (proj2 (proj2 (flatMap_monad_laws p VUndefined f g
                         (initialState (js "abc"))))).
  intros x. reflexivity.
Defined.

(** X18: [zip] is sequencing by [flatMap] and [map]:
    [a.zip(b)] and [a.flatMap((x) => b.map((y) => [x, y]))] have the same
    result on every state when neither parser carries an override (which
    [zip], unlike [flatMap] and [map], never substitutes). *)
Theorem zip_as_flatMap {A B : Type} (pa : Parser A) (pb : Parser B)
    (s : ParserState) :
  has_override pa = false -> has_override pb = false ->
  _run (Parser.zip pa pb) s =
    _run (Parser.flatMap pa (fun x => Parser.map pb (fun y => (x, y)))) s.
Proof.
  intros Ha Hb. rewrite flatMap_run. cbn [Parser.zip new_Parser _run].
  destruct (_run pa s) as [e | [x restA]]; cbn [Either.match_].
  - rewrite (with_override_none pa e Ha). reflexivity.
  - rewrite map_run.
    destruct (_run pb restA) as [e | [y restB]]; cbn [Either.match_].
    + rewrite (with_override_none pb e Hb). reflexivity.
    + reflexivity.
Qed.

Lemma zip_as_flatMap_witness :
  let foo := literal (js "foo") in
  let bar := literal (js "bar") in
  _run (Parser.zip foo bar) (initialState (js "foobar")) =
    _run (Parser.flatMap foo (fun x => Parser.map bar (fun y => (x, y))))
         (initialState (js "foobar")).
Proof.
  intros foo bar.
  apply (zip_as_flatMap foo bar (initialState (js "foobar"))); reflexivity.
Defined.

(** X19: nested message overrides: of two [error] wrappers the outer one
    decides the message, [p.error(m1).error(m2)] behaving as
    [p.error(m2)]; [error2] with a constant function is [error]; and
    [error2] wrapped around [error(m)] computes its message from an error
    whose message is [m].  None of them changes [expected] or [pos]. *)
Theorem error_nesting {T : Type} (p : Parser T) (m1 m2 : JSString)
    (fn : ParserError -> JSString) (s : ParserState) :
  _run (Parser.error (Parser.error p m1) m2) s = _run (Parser.error p m2) s /\
  _run (Parser.error2 p (fun _ => m2)) s = _run (Parser.error p m2) s /\
  (forall e,
     _run p s = Left e ->
     _run (Parser.error2 (Parser.error p m1) fn) s =
       Left (mkError (fn (mkError m1 (expected e) (error_pos e)))
                     (expected e) (error_pos e))).
Proof.
  cbn. split; [| split].
  - destruct (_run p s); reflexivity.
  - reflexivity.
  - intros e ->. reflexivity.
Qed.

(** X20: a message set by [error] survives later composition: when [p]
    fails with [e], then [p.error(m)] mapped, sequenced by [flatMap] or
    zipped fails with message [m] and with the [expected] and [pos] of
    [e]. *)
Theorem error_survives_composition {A B : Type} (p : Parser A)
    (m : JSString) (f : A -> B) (k : A -> Parser B) (q : Parser B)
    (s : ParserState) (e : ParserError) :
  _run p s = Left e ->
  let failure := mkError m (expected e) (error_pos e) in
  _run (Parser.map (Parser.error p m) f) s = Left failure /\
  _run (Parser.flatMap (Parser.error p m) k) s = Left failure /\
  _run (Parser.zip (Parser.error p m) q) s = Left failure.
Proof.
  intros H failure. rewrite map_run, flatMap_run.
  cbn. rewrite H. cbn. repeat split.
Qed.

Lemma error_survives_composition_witness :
  let p := Parser.error (literal (js "foo")) (js "expected foo") in
  _run (Parser.map p (fun a => a)) (initialState (js "bar")) =
    Left (mkError (js "expected foo") [js "foo"] origin) /\
  _run (Parser.flatMap p (fun _ => literal (js "bar")))
       (initialState (js "bar")) =
    Left (mkError (js "expected foo") [js "foo"] origin).
Proof.
  intros p.
  destruct (error_survives_composition (literal (js "foo"))
              (js "expected foo") (fun a => a)
              (fun _ => literal (js "bar")) (literal (js "bar"))
              (initialState (js "bar")) _ eq_refl) as (H1 & H2 & _).
  split; [exact H1 | exact H2].
Defined.

(** X21: [Parser.fail] fails on every state, at the position of that
    state and with the given message and expected list (the empty list
    when it is omitted); it is a left zero of sequencing: mapped,
    followed by any continuation or zipped with any parser, the result is
    the same failure. *)
Theorem fail_left_zero {A B : Type} (m : JSString)
    (exp : option (list JSString)) (f : A -> B) (k : A -> Parser B)
    (q : Parser B) (s : ParserState) :
  let failure := mkError m (default [] exp) (pos s) in
  _run (Parser.fail (T := A) m exp) s = Left failure /\
  _run (Parser.map (Parser.fail (T := A) m exp) f) s = Left failure /\
  _run (Parser.flatMap (Parser.fail (T := A) m exp) k) s = Left failure /\
  _run (Parser.zip (Parser.fail (T := A) m exp) q) s = Left failure.
Proof. repeat split. Qed.

(** ** Records, continued *)

Section BindAlgebra.
Context {V : Type}.
Implicit Types (p : Parser (gmap JSString V)) (k : JSString).
Implicit Types (other : Parser V + (gmap JSString V -> Parser V)).

Lemma bind_run p k other (s : ParserState) :
  _run (Parser.bind p k other) s =
    match _run p s with
    | Left e => Left (with_override (errorMessage p) e)
    | Right (value, newState) =>
        match _run (second_parser other value) newState with
        | Left e => Left e
        | Right (b, finalState) => Right (<[k := b]> value, finalState)
        end
    end.
Proof.
  cbn. destruct (_run p s) as [e | [value newState]].
  - destruct (errorMessage p) as [[| u m] |]; reflexivity.
  - rewrite override_test_right. cbn. unfold second_parser.
    destruct (_run _ newState) as [e | [b finalState]]; reflexivity.
Qed.

(** X22: failures of [bind].  When the receiver fails, [bind] fails with
    that failure after the receiver's override substitution, whatever the
    second argument is; when the receiver succeeds and the second parser
    fails, [bind] fails with the failure of the second parser as it is,
    and the record parsed so far is dropped. *)
Theorem bind_failure p k other (s : ParserState) :
  (forall e,
     _run p s = Left e ->
     forall other',
       _run (Parser.bind p k other') s =
         Left (with_override (errorMessage p) e)) /\
  (forall value newState e,
     _run p s = Right (value, newState) ->
     _run (second_parser other value) newState = Left e ->
     _run (Parser.bind p k other) s = Left e).
Proof.
  split.
  - intros e H other'. rewrite bind_run, H. reflexivity.
  - intros value newState e H1 H2. rewrite bind_run, H1, H2. reflexivity.
Qed.

(** X23: [bind] overwrites: the record it returns holds the new value
    under [k] also when the record of the receiver already had a field
    [k]; every other field is kept, and the field names are those of the
    receiver's record and [k]. *)
Theorem bind_overwrites p k other (s : ParserState)
    (value : gmap JSString V) (newState : ParserState) (b : V)
    (finalState : ParserState) :
  _run p s = Right (value, newState) ->
  _run (second_parser other value) newState = Right (b, finalState) ->
  exists record,
    _run (Parser.bind p k other) s = Right (record, finalState) /\
    record !! k = Some b /\
    (forall j, j <> k -> record !! j = value !! j) /\
    dom record = {[k]} ∪ dom value.
Proof.
  intros H1 H2. exists (<[k := b]> value).
  rewrite bind_run, H1, H2. split; [reflexivity |].
  split; [apply lookup_insert_eq |]. split.
  - intros j Hj. apply lookup_insert_ne. congruence.
  - apply dom_insert_L.
Qed.

(** X24: binding the same name twice keeps the last value only: the
    record is the one obtained by binding the second value alone. *)
Theorem bind_same_key p k (q1 q2 : Parser V) (s : ParserState)
    (value : gmap JSString V) (s1 s2 s3 : ParserState) (b1 b2 : V) :
  _run p s = Right (value, s1) ->
  _run q1 s1 = Right (b1, s2) ->
  _run q2 s2 = Right (b2, s3) ->
  _run (Parser.bind (Parser.bind p k (inl q1)) k (inl q2)) s =
    Right (<[k := b2]> value, s3).
Proof.
  intros H0 H1 H2. rewrite !bind_run, H0. cbn [second_parser].
  rewrite H1, H2, insert_insert_eq. reflexivity.
Qed.

(** X25: [bind] is [flatMap] followed by [map]:
    [p.bind(k, other)] has the results of
    [p.flatMap((value) => second.map((b) => ({...value, [k]: b})))],
    where [second] is [other] or [other(value)], when the second parsers
    carry no override. *)
Theorem bind_as_flatMap p k other (s : ParserState) :
  (forall value, has_override (second_parser other value) = false) ->
  _run (Parser.bind p k other) s =
    _run (Parser.flatMap p (fun value =>
            Parser.map (second_parser other value)
                       (fun b => <[k := b]> value))) s.
Proof.
  intros Hno. rewrite bind_run, flatMap_run.
  destruct (_run p s) as [e | [value newState]]; [reflexivity |].
  rewrite map_run.
  destruct (_run (second_parser other value) newState)
    as [e | [b finalState]]; [| reflexivity].
  rewrite (with_override_none _ e (Hno value)). reflexivity.
Qed.

(** X26: [Parser.Do()] succeeds on every state with the empty record and
    the state unchanged, and a first [bind] on it gives the record with
    the single field [k]. *)
Theorem Do_bind k (q : Parser V) (s : ParserState) (b : V)
    (s' : ParserState) :
  _run (Parser.Do (V := V)) s = Right (∅, s) /\
  (_run q s = Right (b, s') ->
   _run (Parser.bind Parser.Do k (inl q)) s = Right ({[k := b]}, s')).
Proof.
  split; [reflexivity |].
  intros H. rewrite bind_run. cbn [Parser.Do Parser.pure new_Parser _run].
  cbn [Either.right second_parser]. rewrite H, insert_empty. reflexivity.
Qed.
End BindAlgebra.

Lemma bind_overwrites_witness :
  exists record,
    _run (Parser.bind (Parser.bind Parser.Do (js "x") (inl (literal (js "a"))))
                      (js "x") (inl (literal (js "b"))))
         (initialState (js "ab")) =
      Right (record, {| input := []; pos := mkPos 1 3 2 |}) /\
    record !! js "x" = Some (VString (js "b")) /\
    (forall j, j <> js "x" ->
               record !! j =
                 ({[js "x" := VString (js "a")]} : gmap JSString JSValue) !! j) /\
    dom record = {[js "x"]} ∪ dom ({[js "x" := VString (js "a")]}
                                    : gmap JSString JSValue).
Proof.
  apply (bind_overwrites
           (Parser.bind Parser.Do (js "x") (inl (literal (js "a"))))
           (js "x") (inl (literal (js "b"))) (initialState (js "ab"))
           {[js "x" := VString (js "a")]}
           {| input := js "b"; pos := mkPos 1 2 1 |}).
  - reflexivity.
  - reflexivity.
Defined.

Lemma bind_same_key_witness :
  _run (Parser.bind (Parser.bind Parser.Do (js "x") (inl (literal (js "a"))))
                    (js "x") (inl (literal (js "b"))))
       (initialState (js "ab")) =
    Right (<[js "x" := VString (js "b")]> ∅,
           {| input := []; pos := mkPos 1 3 2 |}).
Proof.
  apply (bind_same_key Parser.Do (js "x") (literal (js "a"))
           (literal (js "b")) (initialState (js "ab")) ∅
           (initialState (js "ab"))
           {| input := js "b"; pos := mkPos 1 2 1 |} _ (VString (js "a")));
    reflexivity.
Defined.

Lemma bind_failure_witness :
  _run (Parser.bind (Parser.fail (js "stop") None) (js "x")
                    (inl (literal (js "a"))))
       (initialState (js "a")) =
    Left (mkError (js "stop") [] origin) /\
  _run (Parser.bind Parser.Do (js "x") (inl (literal (js "a"))))
       (initialState (js "b")) =
    Left (mkError (js "no match") [js "a"] origin).
Proof.
  split.
  - apply (proj1 (bind_failure (Parser.fail (js "stop") None) (js "x")
                    (inl (literal (js "a"))) (initialState (js "a")))
             (mkError (js "stop") [] origin)).
    reflexivity.
  - apply (proj2 (bind_failure Parser.Do (js "x") (inl (literal (js "a")))
                    (initialState (js "b"))) ∅ (initialState (js "b")));
      reflexivity.
Defined.

Lemma bind_as_flatMap_witness :
  _run (Parser.bind Parser.Do (js "x") (inl (literal (js "a"))))
       (initialState (js "ab")) =
    _run (Parser.flatMap Parser.Do (fun value =>
            Parser.map (literal (js "a"))
                       (fun b => <[js "x" := b]> value)))
         (initialState (js "ab")).
Proof.
  apply (bind_as_flatMap Parser.Do (js "x") (inl (literal (js "a")))
           (initialState (js "ab"))).
  intros value. reflexivity.
Defined.

Lemma Do_bind_witness :
  _run (Parser.bind Parser.Do (js "x") (inl (literal (js "a"))))
       (initialState (js "ab")) =
    Right ({[js "x" := VString (js "a")]},
           {| input := js "b"; pos := mkPos 1 2 1 |}).
Proof.
  apply (proj2 (Do_bind (js "x") (literal (js "a")) (initialState (js "ab"))
                  (VString (js "a"))
                  {| input := js "b"; pos := mkPos 1 2 1 |})).
  reflexivity.
Defined.

(** ** Parser.gen, continued *)

Section GenSingleUse.
Context {V : Type} (undefined : V).

Lemma resume_paired (body : Generator) (P : GenParser (V := V)) :
  gen_run (resume body).1 = Normal P -> paired P (resume body).2.
Proof.
  destruct body as [[q | v] | [q | v] k]; cbn; intros [= <-]; reflexivity.
Qed.

Lemma next_paired (it : GenState) (sent : V) (P : GenParser (V := V)) :
  gen_run (next undefined it sent).1 = Normal P ->
  paired P (next undefined it sent).2.
Proof.
  destruct it as [body | k |]; cbn [next].
  - apply resume_paired.
  - apply resume_paired.
  - cbn. intros [= <-]. reflexivity.
Qed.

(** A run that succeeds leaves the iterator completed. *)
Lemma exec_success_completed (fuel : nat) (P : GenParser) (s : ParserState)
    (it : GenState) (r : V * ParserState) (it' : GenState) :
  paired P it ->
  exec undefined fuel P s it = Some (Normal (Right r), it') ->
  it' = Completed.
Proof.
  revert P s it. induction fuel as [| fuel IH]; intros P s it Hpaired;
    [discriminate |].
  destruct P as [q | value]; cbn [exec].
  - cbn in Hpaired. intros [= _ <-]. exact Hpaired.
  - destruct (_run value s) as [e | [v newState]].
    + destruct (errorMessage value) as [[| u m] |]; discriminate.
    + rewrite override_test_right.
      pose proof (next_paired it v) as Hnext.
      destruct (next undefined it v) as [r0 it0]. cbn [fst snd] in Hnext.
      destruct (gen_run r0) as [P' | msg]; [| discriminate].
      apply IH. apply Hnext. reflexivity.
Qed.

(** On a completed iterator, the parser made for a yielded parser runs
    that parser and then succeeds with [undefined]. *)
Lemma exec_completed (fuel : nat) (value : Parser V) (s : ParserState) :
  exec undefined (S (S fuel)) (Resume value) s Completed =
    Some (Normal (_run (Parser.flatMap value
                          (fun _ => Parser.pure undefined)) s),
          Completed).
Proof.
  rewrite flatMap_run. cbn [exec].
  destruct (_run value s) as [e | [v newState]].
  - destruct (errorMessage value) as [[| u m] |]; reflexivity.
  - rewrite override_test_right. reflexivity.
Qed.

(** X27: a parser [gen] builds for a yielded parser can be run with
    success once.  Whatever the state of the shared iterator, a run that
    succeeds leaves it completed; every later run of the same parser runs
    the yielded parser and then succeeds with [undefined], as
    [value.flatMap(() => Parser.pure(undefined))] does: the rest of the
    generator is not run again. *)
Theorem gen_single_use (value : Parser V) (it : GenState) (fuel : nat)
    (s : ParserState) (r : V * ParserState) (it' : GenState) :
  exec undefined fuel (Resume value) s it = Some (Normal (Right r), it') ->
  it' = Completed /\
  forall fuel2 s2,
    exec undefined (S (S fuel2)) (Resume value) s2 it' =
      Some (Normal (_run (Parser.flatMap value
                            (fun _ => Parser.pure undefined)) s2),
            Completed).
Proof.
  intros Hrun.
  assert (H : it' = Completed)
    by exact (exec_success_completed fuel (Resume value) s it r it' I Hrun).
  split; [exact H |]. subst it'. intros fuel2 s2. apply exec_completed.
Qed.


(** X29: the generator of [parser[Symbol.iterator]()] driven by [gen].
    On the first run a failure of the parser is the result, after its
    override substitution; a success with a value that is not a parser
    is the result as it is; and when the value is itself a parser,
    [gen] takes the returned value for a parser to run: that parser is
    run on the state reached and its result is the result. *)
Theorem gen_Symbol_iterator (instanceof_Parser : V -> option (Parser V))
    (this : Parser V) (s : ParserState) (fuel : nat) :
  exists P it it',
    gen undefined (Symbol_iterator instanceof_Parser this) =
      (Normal P, it) /\
    exec undefined (S (S fuel)) P s it =
      Some (Normal
              match _run this s with
              | Left e => Left (with_override (errorMessage this) e)
              | Right (v, s') =>
                  match instanceof_Parser v with
                  | Some parser => _run parser s'
                  | None => Right (v, s')
                  end
              end,
            it').
Proof.
  exists (Resume this).
  destruct (_run this s) as [e | [v newState]] eqn:Hrun.
  - eexists _, _. split; [reflexivity |]. cbn [exec]. rewrite Hrun.
    destruct (errorMessage this) as [[| u m] |]; reflexivity.
  - eexists _, _. split; [reflexivity |]. cbn [exec]. rewrite Hrun.
    rewrite override_test_right. cbn [next resume].
    destruct (instanceof_Parser v) as [parser |]; reflexivity.
Qed.

(** The parser made for a generator whose body has just been resumed,
    run with the iterator in the state that resumption left, gives the
    result of the chain of the yielded parsers, provided enough fuel. *)
Lemma exec_resumed (body : Generator) (state : ParserState) :
  yields_parsers_on body state ->
  exists P,
    gen_run (resume body).1 = Normal P /\
    exists n it', forall fuel, (n <= fuel)%nat ->
      exec undefined fuel P state (resume body).2 =
        Some (Normal (_run (sequence_spec body) state), it').
Proof.
  induction 1 as [r state | p k state e Hp | p k state v newState Hp _ IH].
  - exists (Plain (sequence_spec (GReturn r))). split.
    + destruct r; reflexivity.
    + exists 1%nat, Completed. intros [| fuel] Hfuel; [lia |]. reflexivity.
  - exists (Resume p). split; [reflexivity |].
    exists 1%nat, (SuspendedYield k). intros [| fuel] Hfuel; [lia |].
    cbn [exec resume snd sequence_spec].
    rewrite Hp, (flatMap_failure p _ state e Hp).
    destruct (errorMessage p) as [[| u m] |]; reflexivity.
  - exists (Resume p). split; [reflexivity |].
    destruct IH as (P' & HP' & n & it' & Hn).
    exists (S n), it'. intros [| fuel] Hfuel; [lia |].
    cbn [exec resume snd sequence_spec].
    rewrite Hp, override_test_right. cbn [next].
    destruct (resume (k v)) as [r it1] eqn:Hres. cbn [fst snd] in *.
    rewrite HP', (flatMap_success p _ state v newState Hp).
    apply Hn. lia.
Qed.

(** X30: the first run of the parser [gen] returns.  When every value
    the generator yields in the course of the run on [state] is a
    parser, [gen] does not throw, and the parser it returns, run on
    [state] with the iterator as [gen] left it, gives the result of the
    yielded parsers chained in order by [flatMap], each success value
    being sent back into the generator; the chain ends with the returned
    value, run as a parser when it is one and wrapped by [pure]
    otherwise.  When the generator returns at once, [gen] returns that
    parser itself. *)
Theorem gen_first_run (body : Generator) (state : ParserState) :
  yields_parsers_on body state ->
  exists P it,
    gen undefined body = (Normal P, it) /\
    (forall p, body = GReturn (IsParser p) -> P = Plain p) /\
    (forall v, body = GReturn (NotParser v) -> P = Plain (Parser.pure v)) /\
    exists n it', forall fuel, (n <= fuel)%nat ->
      exec undefined fuel P state it =
        Some (Normal (_run (sequence_spec body) state), it').
Proof.
  intros Hbody.
  destruct (exec_resumed body state Hbody) as (P & HP & Hexec).
  exists P, (resume body).2. split; [| split; [| split]].
  - unfold gen. cbn [next]. destruct (resume body) as [r it].
    cbn [fst snd] in *. rewrite HP. reflexivity.
  - intros p ->. cbn in HP. congruence.
  - intros v ->. cbn in HP. congruence.
  - exact Hexec.
Qed.
End GenSingleUse.

Lemma gen_single_use_witness :
  exists P it,
    gen VUndefined ab_body = (Normal P, it) /\
    exec VUndefined 3 P (initialState (js "ab")) it =
      Some (Normal (Right (VString (js "ab"),
                           {| input := []; pos := mkPos 1 3 2 |})),
            Completed) /\
    forall fuel2 s2,
      exec VUndefined (S (S fuel2)) P s2 Completed =
        Some (Normal (_run (Parser.flatMap (literal (js "a"))
                              (fun _ => Parser.pure VUndefined)) s2),
              Completed).
Proof.
  exists (Resume (literal (js "a"))), (gen VUndefined ab_body).2.
  split; [reflexivity |]. split; [reflexivity |].
  exact (proj2 (gen_single_use VUndefined (literal (js "a"))
                  (gen VUndefined ab_body).2 3 (initialState (js "ab"))
                  _ Completed eq_refl)).
Defined.


Lemma error_nesting_witness :
  _run (Parser.error2 (Parser.error (literal (js "foo")) (js "custom"))
                      (fun e => message e ++ js "!"))
       (initialState (js "bar")) =
    Left (mkError (js "custom!") [js "foo"] origin).
Proof.
  apply (proj2 (proj2 (error_nesting (literal (js "foo")) (js "custom")
                         (js "other") (fun e => message e ++ js "!")
                         (initialState (js "bar"))))
           (mkError (js "no match") [js "foo"] origin)).
  reflexivity.
Defined.

Lemma gen_Symbol_iterator_witness :
  let inner := Parser.pure (NNumber 1) in
  let p := Parser.pure (NParser inner) in
  exists P it it',
    gen NUndefined (Symbol_iterator nested_instanceof p) = (Normal P, it) /\
    exec NUndefined 2 P (initialState (js "x")) it =
      Some (Normal (Right (NNumber 1, initialState (js "x"))), it').
Proof.
  intros inner p.
  exact (gen_Symbol_iterator NUndefined nested_instanceof p
           (initialState (js "x")) 0).
Defined.

Lemma ab_body_yields_parsers :
  yields_parsers_on ab_body (initialState (js "ab")).
Proof.
  unfold ab_body.
  eapply yields_parsers_success; [reflexivity |].
  eapply yields_parsers_success; [reflexivity |].
  apply yields_parsers_return.
Qed.

Lemma gen_first_run_witness :
  exists P it,
    gen VUndefined ab_body = (Normal P, it) /\
    (forall p, ab_body = GReturn (IsParser p) -> P = Plain p) /\
    (forall v, ab_body = GReturn (NotParser v) -> P = Plain (Parser.pure v)) /\
    exists n it', forall fuel, (n <= fuel)%nat ->
      exec VUndefined fuel P (initialState (js "ab")) it =
        Some (Normal (_run (sequence_spec ab_body) (initialState (js "ab"))),
              it').
Proof.
  exact (gen_first_run VUndefined ab_body (initialState (js "ab"))
           ab_body_yields_parsers).
Defined.
